(** * Stackl Ansible handler: the inventory plugin's group reconciliation
      and secret resolution

    Shallow embedding of the inventory plugin carried by
    [stackl/agent/agent/kubernetes/handlers/ansible_handler.py]
    (the text of [stackl_plugin]): [check_groups], [create_groups],
    [get_vault_secrets], [get_base64_secrets], [get_conjur_secrets] and
    [InventoryModule.parse].

    Python values are modelled as follows.
    - [str] is a list of Unicode code points ([list N]); literals are written
      [str "..."] for ASCII text.
    - [bytes] is a list of octets ([list N], each below 256).
    - a [dict] is an association list in insertion order, as Python's [dict]
      iterates; [defaultdict] is a [dict] read with a default.
    - an exception is a value of [exn]; a call that may raise returns a
      [result].
    - the count of a group rule is a natural number (the data model of the
      specification: an integer that is at least 0). *)

From Stdlib Require Import String Ascii NArith ZArith Lia DecimalString.
From stdpp Require Import base tactics option list numbers sets.

Local Open Scope N_scope.
Local Open Scope nat_scope.

(** ** Python strings, exceptions and dictionaries *)

Abbreviation pystr := (list N).

(** The code points of an ASCII literal. *)
Definition str (s : string) : pystr :=
  map N_of_ascii (list_ascii_of_string s).

(** [str(index)] for a non-negative integer. *)
Definition str_of_nat (n : nat) : pystr :=
  str (NilEmpty.string_of_uint (Nat.to_uint n)).

(** Exceptions met by the plugin.  [AnsibleParserError] carries its message
    and the exception that was being handled when it was raised (Python's
    implicit [__context__]); [AnsibleError original] is the error [parse]
    raises, whose message is ['Error: this was original exception: %s'] filled
    with [original].  [SystemExit] is what [exit(1)] raises; it is not a
    subclass of [Exception].  [External] stands for whatever a collaborator
    (file system, HTTP client, vault client, stack-state store) raises. *)
Inductive exn : Type :=
| IndexError
| TypeError
| AttributeError
| UnboundLocalError
| ValueError
| BinasciiError
| UnicodeDecodeError
| External (what : pystr)
| AnsibleParserError (msg : pystr) (context : exn)
| AnsibleError (original : exn)
| SystemExit (code : nat).

(** [isinstance(e, Exception)]: everything here but [SystemExit]. *)
Definition is_Exception (e : exn) : bool :=
  match e with SystemExit _ => false | _ => true end.

Inductive result (A : Type) : Type :=
| Ok (a : A)
| Raise (e : exn).
Arguments Ok {A} a.
Arguments Raise {A} e.

#[export] Instance result_ret : MRet result := fun A a => Ok a.
#[export] Instance result_bind : MBind result := fun A B k m =>
  match m with Ok a => k a | Raise e => Raise e end.
#[export] Instance result_fmap : FMap result := fun A B f m =>
  match m with Ok a => Ok (f a) | Raise e => Raise e end.

Abbreviation dict K V := (list (K * V)).

Section Dict.
Context {V : Type}.

(** [d[k]] as an option; [k in d] is [is_Some]. *)
Fixpoint dict_get (k : pystr) (d : dict pystr V) : option V :=
  match d with
  | [] => None
  | (k', v) :: d' => if decide (k' = k) then Some v else dict_get k d'
  end.

Definition dict_mem (k : pystr) (d : dict pystr V) : bool :=
  match dict_get k d with Some _ => true | None => false end.

(** [d[k] = v]: an existing key keeps its position, a new key goes last. *)
Fixpoint dict_set (k : pystr) (v : V) (d : dict pystr V) : dict pystr V :=
  match d with
  | [] => [(k, v)]
  | (k', v') :: d' =>
      if decide (k' = k) then (k, v) :: d' else (k', v') :: dict_set k v d'
  end.

(** [d[k]] of a [defaultdict] whose factory gives [dflt], without the
    insertion (every read of this kind in the plugin is followed by a
    store to the same key). *)
Definition dict_get_default (dflt : V) (k : pystr) (d : dict pystr V) : V :=
  match dict_get k d with Some v => v | None => dflt end.
End Dict.

(** ** Group rules and assignments *)

(** One element of [stackl_inventory_groups]: [{"tags": [...], "count": n}]. *)
Record GroupRule : Type := { tags : list pystr; count : nat }.

(** One element of a group's list: [{"host": h, "target": t}]. *)
Record entry : Type := { host : pystr; target : pystr }.

Abbreviation groups_t := (dict pystr (list entry)).

(** *** [check_groups] *)

(** [for tag in group['tags']: count_group_dict[tag] += group['count']] *)
Fixpoint count_tags (c : nat) (ts : list pystr) (d : dict pystr nat)
  : dict pystr nat :=
  match ts with
  | [] => d
  | tag :: ts' => count_tags c ts' (dict_set tag (dict_get_default 0 tag d + c) d)
  end.

(** [for group in stackl_inventory_groups: ...] *)
Fixpoint count_rules (rules : list GroupRule) (d : dict pystr nat)
  : dict pystr nat :=
  match rules with
  | [] => d
  | group :: rules' => count_rules rules' (count_tags (count group) (tags group) d)
  end.

(** [for tag, count in count_group_dict.items(): if ...: return False] and
    the final [return True]. *)
Fixpoint check_items (items : dict pystr nat) (stackl_groups : groups_t)
    (target_count : nat) : bool :=
  match items with
  | [] => true
  | (tag, cnt) :: items' =>
      match dict_get tag stackl_groups with
      | None => false
      | Some members =>
          if Nat.eqb (length members) (cnt * target_count)
          then check_items items' stackl_groups target_count
          else false
      end
  end.

Definition check_groups (stackl_groups : groups_t)
    (stackl_inventory_groups : list GroupRule) (host_list : list pystr) : bool :=
  let count_group_dict := count_rules stackl_inventory_groups [] in
  let target_count := length host_list in
  check_items count_group_dict stackl_groups target_count.

(** *** [create_groups] *)

(** [groups[tag].append(host)] on a [defaultdict(list)]. *)
Definition groups_append (tag : pystr) (e : entry) (groups : groups_t)
  : groups_t :=
  dict_set tag (dict_get_default [] tag groups ++ [e]) groups.

(** [for index in range(count)]: read [hosts[index]]; an [IndexError] is
    caught, printed and followed by [exit(1)]. *)
Fixpoint index_loop (hosts : list pystr) (infrastructure_target tag : pystr)
    (indices : list nat) (groups : groups_t) : result groups_t :=
  match indices with
  | [] => Ok groups
  | index :: indices' =>
      match hosts !! index with
      | None => Raise (SystemExit 1)
      | Some h =>
          index_loop hosts infrastructure_target tag indices'
            (groups_append tag {| host := h; target := infrastructure_target |}
               groups)
      end
  end.

(** [for tag in item["tags"]] *)
Fixpoint tag_loop (hosts : list pystr) (infrastructure_target : pystr)
    (cnt : nat) (ts : list pystr) (groups : groups_t) : result groups_t :=
  match ts with
  | [] => Ok groups
  | tag :: ts' =>
      groups' ← index_loop hosts infrastructure_target tag (seq 0 cnt) groups;
      tag_loop hosts infrastructure_target cnt ts' groups'
  end.

(** [for item in stackl_inventory_groups: ...; del hosts[0:item["count"]]].
    The list [hosts] is the caller's object and is shortened in place, so the
    loop returns it next to the groups. *)
Fixpoint rule_loop (hosts : list pystr) (rules : list GroupRule)
    (infrastructure_target : pystr) (groups : groups_t)
  : result (groups_t * list pystr) :=
  match rules with
  | [] => Ok (groups, hosts)
  | item :: rules' =>
      groups' ← tag_loop hosts infrastructure_target (count item) (tags item)
                 groups;
      rule_loop (drop (count item) hosts) rules' infrastructure_target groups'
  end.

Definition create_groups (hosts : list pystr)
    (stackl_inventory_groups : list GroupRule) (infrastructure_target : pystr)
  : result (groups_t * list pystr) :=
  rule_loop hosts stackl_inventory_groups infrastructure_target [].

(** ** Text: [str] methods used by the plugin *)

(** [c.isspace()] for one code point, as CPython's [_PyUnicode_IsWhitespace]. *)
Definition is_space (c : N) : bool :=
  ((9 <=? c) && (c <=? 13) || (28 <=? c) && (c <=? 32)
   || (c =? 0x85) || (c =? 0xA0) || (c =? 0x1680)
   || (0x2000 <=? c) && (c <=? 0x200A)
   || (c =? 0x2028) || (c =? 0x2029) || (c =? 0x202F) || (c =? 0x205F)
   || (c =? 0x3000))%N.

(** [s.rstrip(chars)]: drop the longest suffix made of characters that
    satisfy [p]. *)
Fixpoint rstrip_by (p : N -> bool) (s : pystr) : pystr :=
  match s with
  | [] => []
  | c :: s' =>
      match rstrip_by p s' with
      | [] => if p c then [] else [c]
      | kept => c :: kept
      end
  end.

(** [s.lstrip(chars)] *)
Fixpoint lstrip_by (p : N -> bool) (s : pystr) : pystr :=
  match s with
  | [] => []
  | c :: s' => if p c then lstrip_by p s' else s
  end.

(** [s.rstrip()] and [s.strip()] *)
Definition rstrip (s : pystr) : pystr := rstrip_by is_space s.
Definition strip (s : pystr) : pystr := lstrip_by is_space (rstrip_by is_space s).

(** [s.lower()] on the letters A to Z.  The plugin only compares the result
    with ["true"] and ["false"], and no character outside A to Z lowers to
    one of the letters of these two words, so the other case mappings of
    Unicode are left out. *)
Definition lower_char (c : N) : N :=
  (if (65 <=? c) && (c <=? 90) then c + 32 else c)%N.
Definition lower (s : pystr) : pystr := map lower_char s.

(** [s.startswith(sep)] at the current position. *)
Fixpoint starts_with (sep s : pystr) : bool :=
  match sep, s with
  | [], _ => true
  | a :: sep', b :: s' => (a =? b)%N && starts_with sep' s'
  | _ :: _, [] => false
  end.

(** [s.split(sep)] for a non-empty [sep]: scan from the left; [skip] counts
    the characters of a separator just matched that are still to be passed,
    [cur] is the piece being collected. *)
Fixpoint split_go (sep s : pystr) (skip : nat) (cur : pystr) : list pystr :=
  match s with
  | [] => [cur]
  | c :: s' =>
      match skip with
      | S k => split_go sep s' k cur
      | O =>
          if starts_with sep s
          then cur :: split_go sep s' (length sep - 1) []
          else split_go sep s' 0 (cur ++ [c])
      end
  end.
Definition split (sep s : pystr) : list pystr := split_go sep s 0 [].

(** ** Codecs: base64 and UTF-8, as the Python library implements them *)

(** The base64 alphabet: value to character, character to value. *)
Definition b2a (i : N) : N :=
  (if i <? 26 then 65 + i
   else if i <? 52 then 71 + i
   else if i <? 62 then i - 4
   else if i =? 62 then 43 else 47)%N.

Definition a2b (c : N) : option N :=
  (if (65 <=? c) && (c <=? 90) then Some (c - 65)
   else if (97 <=? c) && (c <=? 122) then Some (c - 71)
   else if (48 <=? c) && (c <=? 57) then Some (c + 4)
   else if c =? 43 then Some 62
   else if c =? 47 then Some 63
   else None)%N.

(** The padding character ['=']. *)
Definition PAD : N := 61%N.

(** [base64.b64encode(data)]: three octets give four characters; one or two
    trailing octets give two or three characters and padding. *)
Fixpoint b64encode (data : list N) : pystr :=
  match data with
  | [] => []
  | [b1] => [b2a (b1 / 4); b2a (b1 mod 4 * 16); PAD; PAD]%N
  | [b1; b2] =>
      [b2a (b1 / 4); b2a (b1 mod 4 * 16 + b2 / 16); b2a (b2 mod 16 * 4); PAD]%N
  | b1 :: b2 :: b3 :: rest =>
      [b2a (b1 / 4); b2a (b1 mod 4 * 16 + b2 / 16);
       b2a (b2 mod 16 * 4 + b3 / 64); b2a (b3 mod 64)]%N ++ b64encode rest
  end.

(** The loop of [binascii.a2b_base64] in its default (non-strict) mode.
    [quad_pos] is the position in the current group of four characters,
    [leftchar] the bits not yet written, [pads] the padding characters seen
    since the last data character.  A padding character ends the input once
    the group is complete with it; before that it is skipped, as is every
    character outside the alphabet.  Input that ends inside a group is an
    error ([binascii.Error]).  The shifts and masks of the C code are written
    as multiplications, divisions and remainders. *)
Fixpoint a2b_loop (data : pystr) (quad_pos : nat) (leftchar : N) (pads : nat)
  : result (list N) :=
  match data with
  | [] => match quad_pos with O => Ok [] | _ => Raise BinasciiError end
  | this_ch :: data' =>
      if (this_ch =? PAD)%N then
        if (2 <=? quad_pos) && (4 <=? quad_pos + S pads) then Ok []
        else a2b_loop data' quad_pos leftchar
               (if 2 <=? quad_pos then S pads else pads)
      else
        match a2b this_ch with
        | None => a2b_loop data' quad_pos leftchar pads
        | Some v =>
            match quad_pos with
            | 0 => a2b_loop data' 1 v 0
            | 1 => cons ((leftchar * 4 + v / 16) mod 256)%N
                     <$> a2b_loop data' 2 (v mod 16)%N 0
            | 2 => cons ((leftchar * 16 + v / 4) mod 256)%N
                     <$> a2b_loop data' 3 (v mod 4)%N 0
            | _ => cons ((leftchar * 64 + v) mod 256)%N
                     <$> a2b_loop data' 0 0%N 0
            end
        end
  end.

(** [base64.b64decode(s)] for a [str] argument: the string must be ASCII
    ([ValueError] otherwise), then [binascii.a2b_base64]. *)
Definition b64decode (s : pystr) : result (list N) :=
  if forallb (fun c => c <? 128)%N s then a2b_loop s 0 0%N 0
  else Raise ValueError.

(** A code point that UTF-8 can encode: below 0x110000 and no surrogate. *)
Definition is_scalar (c : N) : bool :=
  ((c <? 0xD800) || (0xDFFF <? c) && (c <? 0x110000))%N.

(** [s.encode("utf-8")] for a string of encodable code points. *)
Definition utf8_encode_char (c : N) : list N :=
  (if c <? 0x80 then [c]
   else if c <? 0x800 then [0xC0 + c / 64; 0x80 + c mod 64]
   else if c <? 0x10000 then
     [0xE0 + c / 4096; 0x80 + c / 64 mod 64; 0x80 + c mod 64]
   else
     [0xF0 + c / 262144; 0x80 + c / 4096 mod 64; 0x80 + c / 64 mod 64;
      0x80 + c mod 64])%N.
Definition utf8_encode (s : pystr) : list N := flat_map utf8_encode_char s.

(** A continuation octet, 10xxxxxx. *)
Definition is_cont (b : N) : bool := ((0x80 <=? b) && (b <? 0xC0))%N.

(** [data.decode("utf-8")], strict: a truncated or malformed sequence, an
    overlong form, a surrogate or a value above 0x10FFFF raises
    [UnicodeDecodeError]. *)
Fixpoint utf8_decode (data : list N) : result pystr :=
  match data with
  | [] => Ok []
  | b1 :: r1 =>
      if (b1 <? 0x80)%N then cons b1 <$> utf8_decode r1
      else if ((0xC2 <=? b1) && (b1 <? 0xE0))%N then
        match r1 with
        | b2 :: r2 =>
            if is_cont b2
            then cons ((b1 - 0xC0) * 64 + (b2 - 0x80))%N <$> utf8_decode r2
            else Raise UnicodeDecodeError
        | _ => Raise UnicodeDecodeError
        end
      else if ((0xE0 <=? b1) && (b1 <? 0xF0))%N then
        match r1 with
        | b2 :: b3 :: r3 =>
            let c := ((b1 - 0xE0) * 4096 + (b2 - 0x80) * 64 + (b3 - 0x80))%N in
            if is_cont b2 && is_cont b3 && (0x800 <=? c)%N && is_scalar c
            then cons c <$> utf8_decode r3
            else Raise UnicodeDecodeError
        | _ => Raise UnicodeDecodeError
        end
      else if ((0xF0 <=? b1) && (b1 <? 0xF5))%N then
        match r1 with
        | b2 :: b3 :: b4 :: r4 =>
            let c := ((b1 - 0xF0) * 262144 + (b2 - 0x80) * 4096
                      + (b3 - 0x80) * 64 + (b4 - 0x80))%N in
            if is_cont b2 && is_cont b3 && is_cont b4
               && (0x10000 <=? c)%N && (c <? 0x110000)%N
            then cons c <$> utf8_decode r4
            else Raise UnicodeDecodeError
        | _ => Raise UnicodeDecodeError
        end
      else Raise UnicodeDecodeError
  end.

(** ** The data the plugin reads *)

(** A Python value as far as the plugin looks at it: the values of
    provisioning parameters, of resolved secrets and of the [conjur_verify]
    option.  [VRules] is a list of [{"tags": ..., "count": ...}] dicts. *)
Inductive pyval : Type :=
| VNone
| VBool (b : bool)
| VInt (z : Z)
| VStr (s : pystr)
| VRules (rules : list GroupRule).

(** An attribute of an object: missing ([hasattr] is false), [None], or a
    value. *)
Inductive attr (A : Type) : Type :=
| NoAttr
| AttrNone
| AttrVal (a : A).
Arguments NoAttr {A}.
Arguments AttrNone {A}.
Arguments AttrVal {A} a.

Definition hasattr {A} (x : attr A) : bool :=
  match x with NoAttr => false | _ => true end.

(** One service definition of a stack instance, as [stackl_client] returns
    it: the attributes [hosts], [provisioning_parameters], [secrets] and
    [infrastructure_target]. *)
Record ServiceDefinition : Type := {
  sd_hosts : attr (list pystr);
  provisioning_parameters : dict pystr pyval;
  sd_secrets : attr (dict pystr pystr);
  infrastructure_target : pystr
}.

(** The stack instance [get_stack_instance] returns: [name], [groups] (a
    dict from tag to entries) and [services] (a dict from service name to
    its definitions, one for each infrastructure target). *)
Record StackInstance : Type := {
  si_name : pystr;
  si_groups : groups_t;
  si_services : dict pystr (list ServiceDefinition)
}.

(** [stackl_client.StackInstanceUpdate(stack_instance_name=...,
    params={"stackl_groups": ...}, disable_invocation=...)] *)
Record StackInstanceUpdate : Type := {
  stack_instance_name : pystr;
  stackl_groups : groups_t;
  disable_invocation : bool
}.

(** The options of the plugin read with [get_option]. *)
Record Options : Type := {
  secret_handler : pystr;
  vault_addr : pystr;
  vault_token_path : pystr;
  conjur_addr : pystr;
  conjur_account : pystr;
  conjur_token_path : pystr;
  conjur_verify : pyval
}.

(** What [requests.get] returns; the plugin reads [text] only. *)
Record Response : Type := { status_code : nat; text : pystr }.

(** One call of [requests.get(url, headers={'Authorization': ...},
    verify=...)]. *)
Record Request : Type := {
  req_url : pystr;
  req_authorization : pystr;
  req_verify : pyval
}.

(** The collaborators of the plugin.
    - [file_readline path]: [open(path, "r").readline()];
    - [hvac_read address token path]: [hvac.Client(url=address,
      token=token).read(path)], either [None] or a reply of which
      [['data']['data']] is kept;
    - [load_token path]: [json.dumps(json.load(open(path))).encode('utf-8')];
    - [requests_get]: the HTTP GET; a reply of any status is returned, not
      raised;
    - [put_stack_instance]: the write to the stack-state store. *)
Record World : Type := {
  file_readline : pystr -> result pystr;
  hvac_read : pystr -> pystr -> pystr -> result (option (dict pystr pyval));
  load_token : pystr -> result (list N);
  requests_get : Request -> result Response;
  put_stack_instance : StackInstanceUpdate -> result unit
}.

(** ** Secret resolvers *)

(** [for key, value in secret_value['data']['data'].items():
    secret_dict[key] = value] *)
Fixpoint vault_store (items secret_dict : dict pystr pyval) : dict pystr pyval :=
  match items with
  | [] => secret_dict
  | (key, value) :: items' => vault_store items' (dict_set key value secret_dict)
  end.

(** [for _, value in service.secrets.items(): ...]: a path the client does
    not find gives [None], and [None['data']] raises [TypeError]. *)
Fixpoint vault_loop (W : World) (address token : pystr)
    (items : dict pystr pystr) (secret_dict : dict pystr pyval)
  : result (dict pystr pyval) :=
  match items with
  | [] => Ok secret_dict
  | (_, value) :: items' =>
      secret_value ← hvac_read W address token value;
      match secret_value with
      | None => Raise TypeError
      | Some data =>
          vault_loop W address token items' (vault_store data secret_dict)
      end
  end.

Definition get_vault_secrets (W : World) (service : ServiceDefinition)
    (address token_path : pystr) : result (dict pystr pyval) :=
  token ← file_readline W token_path;
  match sd_secrets service with
  | AttrVal secrets => vault_loop W address token secrets []
  | _ => Raise AttributeError
  end.

(** [base64.b64decode(secret + "===").decode("utf-8").rstrip()] *)
Definition decode_secret (secret : pystr) : result pystr :=
  data ← b64decode (secret ++ str "===");
  rstrip <$> utf8_decode data.

(** The loop of [get_base64_secrets]; [except Exception] turns every failure
    of the decoding into [AnsibleParserError("Could not decode secret")]. *)
Fixpoint base64_loop (items : dict pystr pystr)
    (decoded_secrets : dict pystr pyval) : result (dict pystr pyval) :=
  match items with
  | [] => Ok decoded_secrets
  | (key, secret) :: items' =>
      match decode_secret secret with
      | Ok value => base64_loop items' (dict_set key (VStr value) decoded_secrets)
      | Raise e =>
          if is_Exception e
          then Raise (AnsibleParserError (str "Could not decode secret") e)
          else Raise e
      end
  end.

Definition get_base64_secrets (service : ServiceDefinition)
  : result (dict pystr pyval) :=
  match sd_secrets service with
  | AttrVal secrets => base64_loop secrets []
  | _ => Raise AttributeError
  end.

(** The [if isinstance(verify, str) and verify.lower() == "false": ...
    elif ...] of [get_conjur_secrets]. *)
Definition verify_flag (verify : pyval) : pyval :=
  match verify with
  | VStr s =>
      if decide (lower s = str "false") then VBool false
      else if decide (lower s = str "true") then VBool true
      else verify
  | _ => verify
  end.

(** The request of one reference:
    [f"{address}/secrets/{account}/variable/{path}"] with the token header. *)
Definition conjur_request (address account : pystr) (token : list N)
    (verify : pyval) (path : pystr) : Request :=
  {| req_url := address ++ str "/secrets/" ++ account ++ str "/variable/" ++ path;
     req_authorization := str "Token token=" ++ [34%N] ++ b64encode token ++ [34%N];
     req_verify := verify |}.

(** The loop of [get_conjur_secrets], with the list of the requests sent.
    [secret_path.split("!var")[1]] raises [IndexError] when the list has one
    element only. *)
Fixpoint conjur_loop (W : World) (address account : pystr) (token : list N)
    (verify : pyval) (items : dict pystr pystr)
    (conjur_secrets : dict pystr pyval)
  : list Request * result (dict pystr pyval) :=
  match items with
  | [] => ([], Ok conjur_secrets)
  | (key, secret_path) :: items' =>
      match split (str "!var") secret_path !! 1 with
      | None => ([], Raise IndexError)
      | Some piece =>
          let path := strip piece in
          let rq := conjur_request address account token verify path in
          match requests_get W rq with
          | Raise e => ([rq], Raise e)
          | Ok r =>
              let '(sent, res) :=
                conjur_loop W address account token verify items'
                  (dict_set key (VStr (text r)) conjur_secrets) in
              (rq :: sent, res)
          end
      end
  end.

Definition get_conjur_secrets (W : World) (service : ServiceDefinition)
    (address account token_path : pystr) (verify : pyval)
  : list Request * result (dict pystr pyval) :=
  match load_token W token_path with
  | Raise e => ([], Raise e)
  | Ok token =>
      let verify := verify_flag verify in
      match sd_secrets service with
      | AttrVal secrets => conjur_loop W address account token verify secrets []
      | _ => ([], Raise AttributeError)
      end
  end.

(** ** [InventoryModule.parse] *)

(** The calls made on [self.inventory]. *)
Inductive event : Type :=
| AddGroup (group : pystr)
| AddHost (host group : pystr)
| SetVariable (group key : pystr) (value : pyval).

(** [for key, value in d.items(): self.inventory.set_variable(group, key,
    value)] *)
Definition set_variables (group : pystr) (d : dict pystr pyval) : list event :=
  map (fun kv => SetVariable group kv.1 kv.2) d.

(** The choice of the resolver by the [secret_handler] option.  With any
    other value the local variable [secrets] is read unbound. *)
Definition resolve_secrets (W : World) (opts : Options)
    (service_definition : ServiceDefinition) : result (dict pystr pyval) :=
  if decide (secret_handler opts = str "vault") then
    get_vault_secrets W service_definition (vault_addr opts)
      (vault_token_path opts)
  else if decide (secret_handler opts = str "base64") then
    get_base64_secrets service_definition
  else if decide (secret_handler opts = str "conjur") then
    (get_conjur_secrets W service_definition (conjur_addr opts)
       (conjur_account opts) (conjur_token_path opts) (conjur_verify opts)).2
  else Raise UnboundLocalError.

(** [if hasattr(service_definition, "secrets"): secrets = ...;
    for key, value in secrets.items(): set_variable(group, key, value)],
    which both branches of [parse] end with. *)
Definition secret_events (W : World) (opts : Options)
    (service_definition : ServiceDefinition) (group : pystr)
  : result (list event) :=
  if hasattr (sd_secrets service_definition) then
    set_variables group <$> resolve_secrets W opts service_definition
  else Ok [].

(** Iterating [provisioning_parameters['stackl_inventory_groups']] as a list
    of rules; iterating an empty string does nothing, anything else that is
    not such a list raises [TypeError]. *)
Definition rules_of (v : pyval) : result (list GroupRule) :=
  match v with
  | VRules rules => Ok rules
  | VStr [] => Ok []
  | _ => Raise TypeError
  end.

(** [for group in value: add_host(...); set the parameters; set the
    secrets], for one group [item] of [stack_instance.groups].  The events
    are those emitted before the loop ends or raises. *)
Fixpoint publish_members (W : World) (opts : Options)
    (service_definition : ServiceDefinition) (item : pystr)
    (value : list entry) : list event * result unit :=
  match value with
  | [] => ([], Ok ())
  | group :: value' =>
      let evs := AddHost (host group) item
                 :: set_variables item (provisioning_parameters service_definition) in
      match secret_events W opts service_definition item with
      | Raise e => (evs, Raise e)
      | Ok sevs =>
          let '(evs', r) :=
            publish_members W opts service_definition item value' in
          (evs ++ sevs ++ evs', r)
      end
  end.

(** [for item, value in stack_instance.groups.items(): add_group(item); ...] *)
Fixpoint publish_groups (W : World) (opts : Options)
    (service_definition : ServiceDefinition) (groups : groups_t)
  : list event * result unit :=
  match groups with
  | [] => ([], Ok ())
  | (item, value) :: groups' =>
      match publish_members W opts service_definition item value with
      | (evs, Raise e) => (AddGroup item :: evs, Raise e)
      | (evs, Ok _) =>
          let '(evs', r) := publish_groups W opts service_definition groups' in
          (AddGroup item :: evs ++ evs', r)
      end
  end.

(** The [else] branch: one group named after the service. *)
Definition publish_service (W : World) (opts : Options) (service : pystr)
    (index : nat) (service_definition : ServiceDefinition)
  : list event * result unit :=
  match sd_hosts service_definition with
  | NoAttr => ([AddGroup service], Raise AttributeError)
  | declared =>
      let host_events :=
        match declared with
        | AttrVal (h :: hs) => map (fun h => AddHost h service) (h :: hs)
        | _ => [AddHost (service ++ str "_" ++ str_of_nat index) service]
        end in
      let evs :=
        AddGroup service :: host_events
        ++ SetVariable service (str "infrastructure_target")
             (VStr (infrastructure_target service_definition))
        :: set_variables service (provisioning_parameters service_definition) in
      match secret_events W opts service_definition service with
      | Raise e => (evs, Raise e)
      | Ok sevs => (evs ++ sevs, Ok ())
      end
  end.

(** The state of one pass: [stack_instance.groups], the calls made on the
    inventory, the calls of [put_stack_instance], and how the pass ended. *)
Record pass : Type := {
  p_groups : groups_t;
  p_events : list event;
  p_writes : list StackInstanceUpdate;
  p_outcome : result unit
}.

(** [if not check_groups(...): stack_instance.groups = create_groups(...);
    put_stack_instance(...)].  [len(host_list)] raises [TypeError] on
    [None]. *)
Definition reconcile_groups (W : World) (name : pystr)
    (service_definition : ServiceDefinition) (groups : groups_t)
  : groups_t * list StackInstanceUpdate * result unit :=
  match sd_hosts service_definition,
        rules_of (default VNone
                    (dict_get (str "stackl_inventory_groups")
                       (provisioning_parameters service_definition))) with
  | AttrVal host_list, Ok rules =>
      if check_groups groups rules host_list then (groups, [], Ok ())
      else
        match create_groups host_list rules
                (infrastructure_target service_definition) with
        | Raise e => (groups, [], Raise e)
        | Ok (groups', _) =>
            let stack_update :=
              {| stack_instance_name := name; stackl_groups := groups';
                 disable_invocation := true |} in
            (groups', [stack_update], put_stack_instance W stack_update)
        end
  | _, _ => (groups, [], Raise TypeError)
  end.

(** The body of the loop over the definitions of one service. *)
Definition parse_definition (W : World) (opts : Options) (name service : pystr)
    (index : nat) (service_definition : ServiceDefinition) (groups : groups_t)
  : pass :=
  if hasattr (sd_hosts service_definition)
     && dict_mem (str "stackl_inventory_groups")
          (provisioning_parameters service_definition)
  then
    match reconcile_groups W name service_definition groups with
    | (groups', writes, Raise e) =>
        {| p_groups := groups'; p_events := []; p_writes := writes;
           p_outcome := Raise e |}
    | (groups', writes, Ok _) =>
        let '(evs, r) := publish_groups W opts service_definition groups' in
        {| p_groups := groups'; p_events := evs; p_writes := writes;
           p_outcome := r |}
    end
  else
    let '(evs, r) := publish_service W opts service index service_definition in
    {| p_groups := groups; p_events := evs; p_writes := []; p_outcome := r |}.

(** Run [step] on the state left by [p], unless [p] raised. *)
Definition and_then (p : pass) (step : groups_t -> pass) : pass :=
  match p_outcome p with
  | Raise _ => p
  | Ok _ =>
      let q := step (p_groups p) in
      {| p_groups := p_groups q; p_events := p_events p ++ p_events q;
         p_writes := p_writes p ++ p_writes q; p_outcome := p_outcome q |}
  end.

(** [for index, service_definition in enumerate(si_service): ...] *)
Fixpoint parse_definitions (W : World) (opts : Options) (name service : pystr)
    (index : nat) (si_service : list ServiceDefinition) (groups : groups_t)
  : pass :=
  match si_service with
  | [] => {| p_groups := groups; p_events := []; p_writes := [];
             p_outcome := Ok () |}
  | service_definition :: si_service' =>
      and_then
        (parse_definition W opts name service index service_definition groups)
        (parse_definitions W opts name service (S index) si_service')
  end.

(** [for service, si_service in stack_instance.services.items(): ...] *)
Fixpoint parse_services (W : World) (opts : Options) (name : pystr)
    (services : dict pystr (list ServiceDefinition)) (groups : groups_t)
  : pass :=
  match services with
  | [] => {| p_groups := groups; p_events := []; p_writes := [];
             p_outcome := Ok () |}
  | (service, si_service) :: services' =>
      and_then (parse_definitions W opts name service 0 si_service groups)
        (parse_services W opts name services')
  end.

(** [parse] from the point where [get_stack_instance] has returned
    [stack_instance]: the loops, inside [try: ... except Exception as e:
    raise AnsibleError(...)]; [SystemExit] is not caught. *)
Definition parse (W : World) (opts : Options) (stack_instance : StackInstance)
  : pass :=
  let p := parse_services W opts (si_name stack_instance)
             (si_services stack_instance) (si_groups stack_instance) in
  match p_outcome p with
  | Raise e =>
      if is_Exception e
      then {| p_groups := p_groups p; p_events := p_events p;
              p_writes := p_writes p; p_outcome := Raise (AnsibleError e) |}
      else p
  | Ok _ => p
  end.

(** The stack-state store between two passes: [store_put] is the store's
    reaction to one [put_stack_instance]; a pass reads the stored instance
    and leaves the store changed by its writes. *)
Definition store_after (store_put : StackInstance -> StackInstanceUpdate -> StackInstance)
    (stored : StackInstance) (writes : list StackInstanceUpdate) : StackInstance :=
  foldl store_put stored writes.

Definition reconcile (W : World) (opts : Options)
    (store_put : StackInstance -> StackInstanceUpdate -> StackInstance)
    (stored : StackInstance) : pass * StackInstance :=
  let p := parse W opts stored in
  (p, store_after store_put stored (p_writes p)).

(** ** [InventoryModule.verify_file] *)

(** [s.endswith(suffix)] *)
Definition ends_with (suffix s : pystr) : bool :=
  starts_with (rev suffix) (rev s).

(** [verify_file]: [base_verify] is the answer of the base class (the file
    exists and the user may read it); the name must end with one of the two
    suffixes. *)
Definition verify_file (base_verify : pystr -> bool) (path : pystr) : bool :=
  if base_verify path then
    if ends_with (str "stackl.yaml") path || ends_with (str "stackl.yml") path
    then true else false
  else false.

(** ** [AnsibleHandler]: the command of the automation job *)

(** [sep.join(pieces)] *)
Fixpoint join (sep : pystr) (pieces : list pystr) : pystr :=
  match pieces with
  | [] => []
  | [p] => p
  | p :: rest => p ++ sep ++ join sep rest
  end.

(** [str(z)] for an integer. *)
Definition str_of_Z (z : Z) : pystr :=
  str (NilZero.string_of_int (Z.to_int z)).

(** How an f-string writes a value: [str(v)].  [repr_rules] is the text
    Python gives a list of rule dicts. *)
Definition format_value (repr_rules : list GroupRule -> pystr) (v : pyval)
  : pystr :=
  match v with
  | VNone => str "None"
  | VBool true => str "True"
  | VBool false => str "False"
  | VInt z => str_of_Z z
  | VStr s => s
  | VRules rules => repr_rules rules
  end.

(** [self._output]: the [AnsibleOutput] of the handler, read for its
    [output_file]. *)
Record AnsibleOutput : Type := { output_file : pystr }.

(** The attributes of the handler that [create_command_args] reads; the base
    class [Handler] sets them.  [h_output] is [None] when the functional
    requirement has no outputs. *)
Record AnsibleHandler : Type := {
  h_service : pystr;
  h_functional_requirement : pystr;
  h_provisioning_parameters : dict pystr pyval;
  h_hosts : option (list pystr);
  h_index : nat;
  h_output : option AnsibleOutput
}.

(** The first line of every command: the entry of the user in
    [/etc/passwd]. *)
Definition passwd_line : pystr :=
  str "echo " ++ [34%N]
  ++ str "${USER_NAME:-runner}:x:$(id -u):$(id -g):${USER_NAME:-runner} user:${HOME}:/sbin/nologin"
  ++ [34%N] ++ str " >> /etc/passwd".

(** [pattern]: [",".join(self.hosts)] when [self.hosts is not None], else
    [self._service + "_" + str(self.index)]. *)
Definition host_pattern (h : AnsibleHandler) : pystr :=
  match h_hosts h with
  | Some hosts => join (str ",") hosts
  | None => h_service h ++ str "_" ++ str_of_nat (h_index h)
  end.

(** The one string of [create_command_args]. *)
Definition create_command (repr_rules : list GroupRule -> pystr)
    (h : AnsibleHandler) : pystr :=
  let serial :=
    match dict_get (str "ansible_serial") (h_provisioning_parameters h) with
    | Some v => v
    | None => VInt 10
    end in
  match dict_get (str "ansible_playbook_path") (h_provisioning_parameters h) with
  | Some path =>
      passwd_line ++ str " && ansible-playbook " ++ format_value repr_rules path
      ++ str " -v -i /opt/ansible/playbooks/inventory/stackl.yml"
  | None =>
      match h_output h with
      | Some output =>
          passwd_line
          ++ str " && ansible-playbook /opt/ansible/playbooks/stackl/playbook-role.yml -e ansible_role="
          ++ h_functional_requirement h
          ++ str " -i /opt/ansible/playbooks/inventory/stackl.yml -e pattern="
          ++ host_pattern h ++ str " -e serial="
          ++ format_value repr_rules serial ++ str " "
          ++ str "-e outputs_path=" ++ output_file output ++ str " "
      | None =>
          passwd_line ++ str " && ansible " ++ host_pattern h
          ++ str " -m include_role -v -i /opt/ansible/playbooks/inventory/stackl.yml -a name="
          ++ h_functional_requirement h
      end
  end.

Definition create_command_args (repr_rules : list GroupRule -> pystr)
    (h : AnsibleHandler) : list pystr :=
  [create_command repr_rules h].

(** [delete_command_args]: the list of [create_command_args] with
    [' -e state=absent'] added to its first element. *)
Definition delete_command_args (repr_rules : list GroupRule -> pystr)
    (h : AnsibleHandler) : list pystr :=
  match create_command_args repr_rules h with
  | command :: rest => (command ++ str " -e state=absent") :: rest
  | [] => []
  end.

(** ** Vocabulary of the properties *)

(** The sum of [count] over the rules. *)
Definition sum_counts (rules : list GroupRule) : nat :=
  foldr (fun r n => count r + n) 0 rules.

(** The sum of [count] times the number of tags over the rules. *)
Definition tagged_demand (rules : list GroupRule) : nat :=
  foldr (fun r n => count r * length (tags r) + n) 0 rules.

(** How many times [t] is listed in [ts]. *)
Fixpoint occurrences (t : pystr) (ts : list pystr) : nat :=
  match ts with
  | [] => 0
  | x :: ts' => (if decide (x = t) then 1 else 0) + occurrences t ts'
  end.

(** The count a tag gets from all the rules that list it, once for every
    time a rule lists it. *)
Definition total_count (rules : list GroupRule) (t : pystr) : nat :=
  foldr (fun r n => count r * occurrences t (tags r) + n) 0 rules.

(** Every tag listed by some rule. *)
Definition rule_tags (rules : list GroupRule) : list pystr :=
  flat_map tags rules.

(** The entries made of a list of hosts. *)
Definition entries_of (hs : list pystr) (tgt : pystr) : list entry :=
  map (fun h => {| host := h; target := tgt |}) hs.

(** The hosts each rule takes, in the order of the rules: the first [count]
    hosts of the pool the rule meets; the next rule meets the pool without
    them. *)
Fixpoint rule_segments (pool : list pystr) (rules : list GroupRule)
  : list (list pystr) :=
  match rules with
  | [] => []
  | r :: rules' =>
      take (count r) pool :: rule_segments (drop (count r) pool) rules'
  end.

(** The entries tag [t] is given when the rules take the hosts [segments]:
    each rule, in order, gives every listing of [t] among its tags entries
    for all the hosts it takes. *)
Fixpoint given (rules : list GroupRule) (segments : list (list pystr))
    (tgt t : pystr) : list entry :=
  match rules, segments with
  | r :: rules', seg :: segments' =>
      concat (replicate (occurrences t (tags r)) (entries_of seg tgt))
      ++ given rules' segments' tgt t
  | _, _ => []
  end.

Definition assigned (pool : list pystr) (rules : list GroupRule) (tgt t : pystr)
  : list entry :=
  given rules (rule_segments pool rules) tgt t.
Arguments assigned : simpl never.

(** Every rule that lists a tag finds [count] hosts in the pool it meets. *)
Fixpoint enough (pool : list pystr) (rules : list GroupRule) : bool :=
  match rules with
  | [] => true
  | r :: rules' =>
      (match tags r with [] => true | _ => count r <=? length pool end)
      && enough (drop (count r) pool) rules'
  end.

(** [s] and [t] are equal up to the case of the letters A to Z. *)
Definition eq_nocase (s t : pystr) : Prop :=
  Forall2 (fun a b => a = b \/ lower_char a = b \/ a = lower_char b) s t.

(** [sep] occurs in [s]. *)
Definition occurs_in (sep s : pystr) : Prop :=
  exists before after, s = before ++ sep ++ after.

(** The hosts left when a rule is reached are fewer than its count, and the
    rule lists a tag: rule [i] meets the pool without the hosts taken by the
    rules before it. *)
Definition short (pool : list pystr) (rules : list GroupRule) : Prop :=
  exists i r, rules !! i = Some r /\ tags r <> []
              /\ length (drop (sum_counts (take i rules)) pool) < count r.

(** No key of the groups holds an empty list. *)
Definition no_empty_group (g : groups_t) : Prop :=
  forall t, dict_get t g <> Some [].

(** [groups[tag].append(e)] for every [e] of [es], in order. *)
Fixpoint append_all (tag : pystr) (es : list entry) (g : groups_t) : groups_t :=
  match es with
  | [] => g
  | e :: es' => append_all tag es' (groups_append tag e g)
  end.

(** [s.rstrip("=")]: a base64 text without its padding. *)
Definition is_pad (c : N) : bool := (c =? PAD)%N.
Definition unpadded (s : pystr) : pystr := rstrip_by is_pad s.

(** The characters of [b64encode data] before the padding. *)
Fixpoint b64chars (data : list N) : pystr :=
  match data with
  | [] => []
  | [b1] => [b2a (b1 / 4); b2a (b1 mod 4 * 16)]%N
  | [b1; b2] =>
      [b2a (b1 / 4); b2a (b1 mod 4 * 16 + b2 / 16); b2a (b2 mod 16 * 4)]%N
  | b1 :: b2 :: b3 :: rest =>
      [b2a (b1 / 4); b2a (b1 mod 4 * 16 + b2 / 16);
       b2a (b2 mod 16 * 4 + b3 / 64); b2a (b3 mod 64)]%N ++ b64chars rest
  end.

(** A reference of a Conjur batch whose resolution raises: it has no
    ["!var"], or its HTTP GET raises. *)
Definition conjur_entry_raises (W : World) (address account : pystr)
    (token : list N) (verify : pyval) (ref : pystr) : Prop :=
  match split (str "!var") ref !! 1 with
  | None => True
  | Some piece =>
      exists e, requests_get W
                  (conjur_request address account token verify (strip piece))
                = Raise e
  end.

(** A reference of a Vault batch whose resolution raises: the read raises or
    finds nothing. *)
Definition vault_entry_raises (W : World) (address token ref : pystr) : Prop :=
  hvac_read W address token ref = Ok None
  \/ exists e, hvac_read W address token ref = Raise e.

(** What resolving one reference of a Conjur batch raises, if anything:
    [IndexError] without ["!var"], else what its HTTP GET raises. *)
Definition conjur_entry_error (W : World) (address account : pystr)
    (token : list N) (verify : pyval) (ref : pystr) : option exn :=
  match split (str "!var") ref !! 1 with
  | None => Some IndexError
  | Some piece =>
      match requests_get W
              (conjur_request address account token verify (strip piece)) with
      | Raise e => Some e
      | Ok _ => None
      end
  end.

(** What resolving one reference of a Vault batch raises, if anything: what
    the read raises, or [TypeError] when it finds nothing. *)
Definition vault_entry_error (W : World) (address token ref : pystr)
  : option exn :=
  match hvac_read W address token ref with
  | Raise e => Some e
  | Ok None => Some TypeError
  | Ok (Some _) => None
  end.

(** [items] with its first reference that raises [e] singled out: no
    reference before it raises. *)
Definition first_error (error : pystr -> option exn) (items : dict pystr pystr)
    (e : exn) : Prop :=
  exists before key ref after,
    items = before ++ (key, ref) :: after
    /\ Forall (fun kr => error kr.2 = None) before
    /\ error ref = Some e.

(** The test that selects the grouped branch of [parse]. *)
Definition grouped (sd : ServiceDefinition) : bool :=
  hasattr (sd_hosts sd)
  && dict_mem (str "stackl_inventory_groups") (provisioning_parameters sd).

(** [check_groups] returns [True] for a grouped definition, against the
    groups [groups]. *)
Definition definition_valid (groups : groups_t) (sd : ServiceDefinition) : Prop :=
  grouped sd = true ->
  exists host_list rules,
    sd_hosts sd = AttrVal host_list
    /\ rules_of (default VNone
                   (dict_get (str "stackl_inventory_groups")
                      (provisioning_parameters sd))) = Ok rules
    /\ check_groups groups rules host_list = true.

(** The stored assignment satisfies the rules of every grouped definition of
    the instance. *)
Definition instance_valid (inst : StackInstance) : Prop :=
  Forall (fun svc => Forall (definition_valid (si_groups inst)) svc.2)
    (si_services inst).

(** The entry [kv] of a resolved mapping is the reference [kr] decoded, under
    the same key. *)
Definition resolves_to (kr : pystr * pystr) (kv : pystr * pyval) : Prop :=
  kv.1 = kr.1 /\ exists s, decode_secret kr.2 = Ok s /\ kv.2 = VStr s.

(** The path the Conjur resolver reads for a reference: the piece after the
    first ["!var"], without the white space around it. *)
Definition conjur_path (ref : pystr) : pystr :=
  strip (default [] (split (str "!var") ref !! 1)).

(** The entry [kv] of a resolved mapping is the text of the reply to the
    request of the reference [kr], under the same key. *)
Definition replied_to (W : World) (request : pystr -> Request)
    (kr : pystr * pystr) (kv : pystr * pyval) : Prop :=
  kv.1 = kr.1
  /\ exists r, requests_get W (request (conjur_path kr.2)) = Ok r
               /\ kv.2 = VStr (text r).

(** The value of [key] in the last of the mappings [datas] that has it. *)
Definition last_binding (datas : list (dict pystr pyval)) (key : pystr)
  : option pyval :=
  foldl (fun found data =>
           match dict_get key data with Some v => Some v | None => found end)
    None datas.

(** Every service definition of the instance, in the order of the pass. *)
Definition all_definitions (inst : StackInstance) : list ServiceDefinition :=
  flat_map snd (si_services inst).

(** The update [u] is what [parse] writes after [create_groups] on a
    definition that satisfies [from]: it names the instance, switches the
    invocation off and carries the groups just computed. *)
Definition fresh_write (from : ServiceDefinition -> Prop) (name : pystr)
    (u : StackInstanceUpdate) : Prop :=
  disable_invocation u = true
  /\ stack_instance_name u = name
  /\ exists sd host_list rules rest,
       from sd
       /\ sd_hosts sd = AttrVal host_list
       /\ rules_of (default VNone
                      (dict_get (str "stackl_inventory_groups")
                         (provisioning_parameters sd))) = Ok rules
       /\ create_groups host_list rules (infrastructure_target sd)
          = Ok (stackl_groups u, rest).

(** Every host and every variable of the trace goes to a group that was
    added before it, or is in [known]. *)
Fixpoint well_scoped (known : list pystr) (events : list event) : Prop :=
  match events with
  | [] => True
  | AddGroup g :: rest => well_scoped (g :: known) rest
  | AddHost _ g :: rest => g ∈ known /\ well_scoped known rest
  | SetVariable g _ _ :: rest => g ∈ known /\ well_scoped known rest
  end.

(** The [secret_handler] option names none of the three resolvers. *)
Definition unknown_handler (opts : Options) : Prop :=
  secret_handler opts <> str "vault"
  /\ secret_handler opts <> str "base64"
  /\ secret_handler opts <> str "conjur".

(** The calls for one entry of a stored group: its host, then every
    provisioning parameter and every resolved secret as a variable of the
    group. *)
Definition member_events (service_definition : ServiceDefinition)
    (secrets : dict pystr pyval) (item : pystr) (e : entry) : list event :=
  AddHost (host e) item
  :: set_variables item (provisioning_parameters service_definition)
  ++ set_variables item secrets.

(** The calls for one stored group: the group, then its entries in order. *)
Definition group_events (service_definition : ServiceDefinition)
    (secrets : dict pystr pyval) (g : pystr * list entry) : list event :=
  AddGroup g.1 :: flat_map (member_events service_definition secrets g.1) g.2.

(** The update [parse] writes for the groups [fresh]. *)
Definition groups_update (name : pystr) (fresh : groups_t)
  : StackInstanceUpdate :=
  {| stack_instance_name := name; stackl_groups := fresh;
     disable_invocation := true |}.

(** ** Sample data *)

Definition host1 : pystr := str "h1".
Definition host2 : pystr := str "h2".
Definition host3 : pystr := str "h3".
Definition host4 : pystr := str "h4".
Definition tag_web : pystr := str "web".
Definition tag_db : pystr := str "db".
Definition target1 : pystr := str "t1".

Definition rule (ts : list pystr) (n : nat) : GroupRule :=
  {| tags := ts; count := n |}.
Definition member (h tgt : pystr) : entry := {| host := h; target := tgt |}.

(** The scenario of the specification: four hosts, two for ["web"], one for
    ["db"]. *)
Definition scenario_pool : list pystr := [host1; host2; host3; host4].
Definition scenario_rules : list GroupRule := [rule [tag_web] 2; rule [tag_db] 1].

(** Collaborators that answer every call. *)
Definition answering_world : World :=
  {| file_readline := fun _ => Ok (str "token");
     hvac_read := fun _ _ _ => Ok (Some [(str "user", VStr (str "admin"))]);
     load_token := fun _ => Ok (utf8_encode (str "{}"));
     requests_get := fun _ => Ok {| status_code := 200; text := str "s3cret" |};
     put_stack_instance := fun _ => Ok () |}.

(** A Conjur server that answers every read with status 404. *)
Definition not_found_world : World :=
  {| file_readline := fun _ => Ok (str "token");
     hvac_read := fun _ _ _ => Ok None;
     load_token := fun _ => Ok (utf8_encode (str "{}"));
     requests_get :=
       fun _ => Ok {| status_code := 404; text := str "not found" |};
     put_stack_instance := fun _ => Ok () |}.

(** Backends that cannot be reached. *)
Definition offline_world : World :=
  {| file_readline := fun _ => Ok (str "token");
     hvac_read := fun _ _ _ => Raise (External (str "ConnectionError"));
     load_token := fun _ => Ok (utf8_encode (str "{}"));
     requests_get := fun _ => Raise (External (str "ConnectionError"));
     put_stack_instance := fun _ => Raise (External (str "ConnectionError")) |}.

Definition sample_options (handler : pystr) : Options :=
  {| secret_handler := handler;
     vault_addr := str "http://vault:8200";
     vault_token_path := str "/run/vault/token";
     conjur_addr := str "https://conjur";
     conjur_account := str "acme";
     conjur_token_path := str "/run/conjur/token";
     conjur_verify := VStr (str "True") |}.

(** A service with one base64 secret and no declared hosts or groups. *)
Definition plain_service : ServiceDefinition :=
  {| sd_hosts := AttrNone;
     provisioning_parameters := [(str "role", VStr (str "db"))];
     sd_secrets := AttrVal [(str "pw", str "cGFzcw")];
     infrastructure_target := target1 |}.

(** A service whose hosts are grouped by [rules]. *)
Definition grouped_service (pool : list pystr) (rules : list GroupRule)
  : ServiceDefinition :=
  {| sd_hosts := AttrVal pool;
     provisioning_parameters := [(str "stackl_inventory_groups", VRules rules)];
     sd_secrets := NoAttr;
     infrastructure_target := target1 |}.

(** A service with the given secret references. *)
Definition secret_service (refs : dict pystr pystr) : ServiceDefinition :=
  {| sd_hosts := AttrNone;
     provisioning_parameters := [];
     sd_secrets := AttrVal refs;
     infrastructure_target := target1 |}.

(** An instance whose stored groups satisfy its one grouped service. *)
Definition settled_instance : StackInstance :=
  {| si_name := str "instance-1";
     si_groups := [(tag_web, [member host1 target1])];
     si_services := [(str "app", [grouped_service [host1] [rule [tag_web] 1]])] |}.

(** A store that keeps the groups of the last update. *)
Definition keep_groups (stored : StackInstance) (update : StackInstanceUpdate)
  : StackInstance :=
  {| si_name := si_name stored;
     si_groups := stackl_groups update;
     si_services := si_services stored |}.

(** An instance with one service that has a secret and no groups. *)
Definition plain_instance : StackInstance :=
  {| si_name := str "instance-1";
     si_groups := [];
     si_services := [(str "db", [plain_service])] |}.

(** A service that declares [hosts] and nothing else. *)
Definition hosted_service (hosts : attr (list pystr)) : ServiceDefinition :=
  {| sd_hosts := hosts;
     provisioning_parameters := [];
     sd_secrets := NoAttr;
     infrastructure_target := target1 |}.

(** A service with one parameter and one base64 secret that does not
    decode. *)
Definition undecodable_service : ServiceDefinition :=
  {| sd_hosts := AttrNone;
     provisioning_parameters := [(str "role", VStr (str "db"))];
     sd_secrets := AttrVal [(str "pw", str "Q")];
     infrastructure_target := target1 |}.

(** The handler of the first definition of service ["db"]. *)
Definition sample_handler (hosts : option (list pystr)) : AnsibleHandler :=
  {| h_service := str "db";
     h_functional_requirement := str "postgres";
     h_provisioning_parameters := [];
     h_hosts := hosts;
     h_index := 0;
     h_output := None |}.

(** ** Tactics *)

(** Linear arithmetic with division and remainder by constants. *)
Ltac div_lia := zify; Z.to_euclidean_division_equations; lia.

(** Case analysis on every comparison of binary naturals in sight. *)
Ltac n_cases :=
  repeat match goal with
    | |- context [N.ltb ?a ?b] => destruct (N.ltb_spec a b)
    | |- context [N.leb ?a ?b] => destruct (N.leb_spec a b)
    | |- context [N.eqb ?a ?b] => destruct (N.eqb_spec a b)
    | H : context [N.ltb ?a ?b] |- _ => destruct (N.ltb_spec a b)
    | H : context [N.leb ?a ?b] |- _ => destruct (N.leb_spec a b)
    | H : context [N.eqb ?a ?b] |- _ => destruct (N.eqb_spec a b)
    end; cbn [andb orb negb] in *.

(** Settle the comparisons of the goal that the hypotheses decide. *)
Ltac n_decide :=
  repeat first
    [ progress cbn [andb orb negb]
    | match goal with
      | |- context [(?a <? ?b)%N] =>
          first [ rewrite (proj2 (N.ltb_lt a b)) by div_lia
                | rewrite (proj2 (N.ltb_ge a b)) by div_lia ]
      | |- context [(?a <=? ?b)%N] =>
          first [ rewrite (proj2 (N.leb_le a b)) by div_lia
                | rewrite (proj2 (N.leb_gt a b)) by div_lia ]
      end ].

(** Equal lists of octets, element by element. *)
Ltac list_eq := repeat (f_equal; try div_lia).

(** ** Facts about dictionaries, [create_groups] and [check_groups] *)

Section DictFacts.
Context {V : Type}.
Implicit Types (d : dict pystr V) (k : pystr) (v : V).

Lemma dict_get_set_eq k v d : dict_get k (dict_set k v d) = Some v.
Proof.
  induction d as [|[k' v'] d IH]; simpl.
  - by rewrite decide_True.
  - destruct (decide (k' = k)) as [->|Hne]; simpl.
    + by rewrite decide_True.
    + by rewrite decide_False.
Qed.

Lemma dict_get_set_ne k k' v d :
  k <> k' -> dict_get k' (dict_set k v d) = dict_get k' d.
Proof.
  intros Hne. induction d as [|[k0 v0] d IH]; simpl.
  - by rewrite decide_False.
  - destruct (decide (k0 = k)) as [->|Hk]; simpl.
    + by rewrite !decide_False.
    + destruct (decide (k0 = k')); [done | apply IH].
Qed.

Lemma dict_get_set k k' v d :
  dict_get k' (dict_set k v d) = if decide (k = k') then Some v else dict_get k' d.
Proof.
  destruct (decide (k = k')) as [->|Hne].
  - apply dict_get_set_eq.
  - by apply dict_get_set_ne.
Qed.

Lemma dict_set_keys k v d :
  forall k', k' ∈ (dict_set k v d).*1 <-> k' = k \/ k' ∈ d.*1.
Proof.
  intros k'. induction d as [|[k0 v0] d IH]; simpl.
  - rewrite list_elem_of_singleton, elem_of_nil. tauto.
  - destruct (decide (k0 = k)) as [->|Hk]; simpl;
      rewrite !elem_of_cons; [tauto | rewrite IH; tauto].
Qed.

Lemma dict_set_NoDup k v d : NoDup d.*1 -> NoDup (dict_set k v d).*1.
Proof.
  induction d as [|[k0 v0] d IH]; simpl; intros Hnd.
  - apply NoDup_singleton.
  - apply NoDup_cons in Hnd as [Hnin Hnd].
    destruct (decide (k0 = k)) as [->|Hk]; simpl.
    + by apply NoDup_cons.
    + apply NoDup_cons. split; [|by apply IH].
      rewrite dict_set_keys. intros [->|Hin]; done.
Qed.

Lemma dict_get_None k d : dict_get k d = None <-> k ∉ d.*1.
Proof.
  induction d as [|[k0 v0] d IH]; simpl.
  - split; [intros _; apply not_elem_of_nil | done].
  - rewrite not_elem_of_cons.
    destruct (decide (k0 = k)) as [->|Hk]; [split; [done | tauto] |].
    rewrite IH. split; [done | tauto].
Qed.

Lemma dict_get_elem_of k v d :
  NoDup d.*1 -> ((k, v) ∈ d <-> dict_get k d = Some v).
Proof.
  induction d as [|[k0 v0] d IH]; simpl; intros Hnd.
  - rewrite elem_of_nil. split; [done | discriminate].
  - apply NoDup_cons in Hnd as [Hnin Hnd].
    rewrite elem_of_cons, (IH Hnd).
    destruct (decide (k0 = k)) as [->|Hk].
    + split.
      * intros [[= ->]|Hget]; [done|].
        apply dict_get_None in Hnin. congruence.
      * intros [= ->]. by left.
    + split; [intros [[= -> ->]|?]; done | by right].
Qed.
End DictFacts.

(** *** Facts about [create_groups] *)

Lemma groups_append_default tag e g t :
  dict_get_default [] t (groups_append tag e g)
  = dict_get_default [] t g ++ (if decide (tag = t) then [e] else []).
Proof.
  unfold groups_append, dict_get_default at 1. rewrite dict_get_set.
  destruct (decide (tag = t)) as [->|Hne]; [done|].
  unfold dict_get_default. by rewrite app_nil_r.
Qed.

Lemma groups_append_no_empty tag e g :
  no_empty_group g -> no_empty_group (groups_append tag e g).
Proof.
  intros Hg t. unfold groups_append. rewrite dict_get_set.
  destruct (decide (tag = t)); [|apply Hg].
  intros [= Heq]. by destruct (dict_get_default [] tag g).
Qed.

Lemma append_all_default tag es g t :
  dict_get_default [] t (append_all tag es g)
  = dict_get_default [] t g ++ (if decide (tag = t) then es else []).
Proof.
  revert g. induction es as [|e es IH]; intros g; simpl.
  - destruct (decide (tag = t)); by rewrite app_nil_r.
  - rewrite IH, groups_append_default.
    destruct (decide (tag = t)); by rewrite <- app_assoc.
Qed.

Lemma append_all_no_empty tag es g :
  no_empty_group g -> no_empty_group (append_all tag es g).
Proof.
  revert g. induction es as [|e es IH]; intros g Hg; simpl; [done|].
  by apply IH, groups_append_no_empty.
Qed.

Lemma index_loop_seq pool tgt tag n s g :
  s + n <= length pool ->
  index_loop pool tgt tag (seq s n) g
  = Ok (append_all tag (entries_of (take n (drop s pool)) tgt) g).
Proof.
  revert s g. induction n as [|n IH]; intros s g Hlen; simpl; [done|].
  destruct (pool !! s) as [h|] eqn:Hs.
  - rewrite IH by lia.
    rewrite (drop_S _ _ _ Hs). simpl. done.
  - apply lookup_ge_None in Hs. lia.
Qed.

Lemma index_loop_short pool tgt tag n s g :
  s <= length pool < s + n ->
  index_loop pool tgt tag (seq s n) g = Raise (SystemExit 1).
Proof.
  revert s g. induction n as [|n IH]; intros s g Hlen; simpl; [lia|].
  destruct (pool !! s) as [h|] eqn:Hs; [|done].
  apply lookup_lt_Some in Hs. apply IH. lia.
Qed.

Lemma tag_loop_ok pool tgt c ts g :
  c <= length pool ->
  exists g', tag_loop pool tgt c ts g = Ok g'
    /\ (no_empty_group g -> no_empty_group g')
    /\ forall t, dict_get_default [] t g'
         = dict_get_default [] t g
           ++ concat (replicate (occurrences t ts) (entries_of (take c pool) tgt)).
Proof.
  intros Hc. revert g. induction ts as [|tag ts IH]; intros g; simpl.
  - exists g. split_and!; [done..|]. intros t. by rewrite app_nil_r.
  - rewrite index_loop_seq by (simpl; lia). simpl. rewrite drop_0.
    destruct (IH (append_all tag (entries_of (take c pool) tgt) g))
      as (g' & -> & Hne & Hget).
    exists g'. split_and!; [done| |].
    + intros Hg. by apply Hne, append_all_no_empty.
    + intros t. rewrite Hget, append_all_default.
      destruct (decide (tag = t)); simpl; by rewrite <- ?app_assoc, ?app_nil_r.
Qed.

Lemma tag_loop_short pool tgt c ts g :
  ts <> [] -> length pool < c ->
  tag_loop pool tgt c ts g = Raise (SystemExit 1).
Proof.
  intros Hts Hc. destruct ts as [|tag ts]; [done|]. simpl.
  by rewrite index_loop_short by (simpl; lia).
Qed.

Lemma assigned_cons pool r rules tgt t :
  assigned pool (r :: rules) tgt t
  = concat (replicate (occurrences t (tags r))
              (entries_of (take (count r) pool) tgt))
    ++ assigned (drop (count r) pool) rules tgt t.
Proof. reflexivity. Qed.

Lemma rule_segments_concat rules : forall pool,
  concat (rule_segments pool rules) = take (sum_counts rules) pool.
Proof.
  induction rules as [|r rules IH]; intros pool; cbn [rule_segments concat].
  - done.
  - rewrite IH. apply take_take_drop.
Qed.

Lemma rule_segments_NoDup pool rules :
  NoDup pool -> NoDup (concat (rule_segments pool rules)).
Proof.
  intros Hnd. rewrite rule_segments_concat.
  eapply sublist_NoDup; [exact Hnd | apply sublist_take].
Qed.

Lemma rule_loop_ok rules : forall pool tgt g,
  enough pool rules = true ->
  exists g', rule_loop pool rules tgt g = Ok (g', drop (sum_counts rules) pool)
    /\ (no_empty_group g -> no_empty_group g')
    /\ forall t, dict_get_default [] t g'
         = dict_get_default [] t g ++ assigned pool rules tgt t.
Proof.
  induction rules as [|r rules IH]; intros pool tgt g Hen; simpl in *.
  - exists g. split_and!; [done..|]. intros t. by rewrite app_nil_r.
  - apply andb_prop in Hen as [Hr Hen].
    destruct (tags r) as [|tag ts] eqn:Hts.
    + simpl. destruct (IH _ tgt g Hen) as (g' & Hrun & Hne & Hget).
      exists g'. rewrite Hrun, drop_drop. split_and!; [done..|].
      intros t. by rewrite Hget, assigned_cons, Hts.
    + apply Nat.leb_le in Hr.
      destruct (tag_loop_ok pool tgt (count r) (tag :: ts) g Hr)
        as (g1 & Hrun1 & Hne1 & Hget1).
      rewrite Hrun1. simpl.
      destruct (IH _ tgt g1 Hen) as (g' & Hrun & Hne & Hget).
      exists g'. rewrite Hrun, drop_drop. split_and!; [done|tauto|].
      intros t. by rewrite Hget, Hget1, assigned_cons, Hts, <- app_assoc.
Qed.

Lemma rule_loop_short rules : forall pool tgt g,
  enough pool rules = false ->
  rule_loop pool rules tgt g = Raise (SystemExit 1).
Proof.
  induction rules as [|r rules IH]; intros pool tgt g Hen; simpl in *; [done|].
  apply andb_false_iff in Hen as [Hr|Hen].
  - destruct (tags r) as [|tag ts] eqn:Hts; [done|].
    apply Nat.leb_gt in Hr.
    by rewrite tag_loop_short.
  - destruct (tags r) as [|tag ts] eqn:Hts.
    + simpl. by apply IH.
    + destruct (decide (count r <= length pool)) as [Hle|Hgt].
      * destruct (tag_loop_ok pool tgt (count r) (tag :: ts) g Hle)
          as (g1 & -> & _). simpl. by apply IH.
      * rewrite tag_loop_short by (done || lia). done.
Qed.

Lemma sum_counts_enough rules : forall pool,
  sum_counts rules <= length pool -> enough pool rules = true.
Proof.
  induction rules as [|r rules IH]; intros pool Hle; simpl in *; [done|].
  apply andb_true_intro. split.
  - destruct (tags r); [done|]. apply Nat.leb_le. lia.
  - apply IH. rewrite length_drop. lia.
Qed.

Lemma assigned_length rules : forall pool tgt t,
  enough pool rules = true ->
  length (assigned pool rules tgt t) = total_count rules t.
Proof.
  induction rules as [|r rules IH]; intros pool tgt t Hen; simpl in *; [done|].
  apply andb_prop in Hen as [Hr Hen].
  rewrite assigned_cons, length_app, (IH _ _ _ Hen). f_equal.
  destruct (tags r) as [|tag ts] eqn:Hts.
  - simpl. lia.
  - apply Nat.leb_le in Hr.
    generalize (occurrences t (tag :: ts)). intros n.
    induction n as [|n IHn]; simpl; [lia|].
    rewrite length_app, IHn. unfold entries_of.
    rewrite length_map, length_take. lia.
Qed.

(** *** Facts about [check_groups] *)

Lemma occurrences_zero t ts : occurrences t ts = 0 <-> t ∉ ts.
Proof.
  induction ts as [|x ts IH]; simpl.
  - split; [intros _; apply not_elem_of_nil | done].
  - rewrite not_elem_of_cons.
    destruct (decide (x = t)) as [->|Hne]; simpl.
    + split; [lia | tauto].
    + rewrite IH. split; [by split | tauto].
Qed.

Lemma count_tags_get c ts : forall d t,
  dict_get t (count_tags c ts d)
  = if decide (t ∈ ts)
    then Some (dict_get_default 0 t d + c * occurrences t ts)
    else dict_get t d.
Proof.
  induction ts as [|x ts IH]; intros d t; cbn [count_tags occurrences].
  - destruct (decide (t ∈ [])) as [H|_]; [by apply elem_of_nil in H | done].
  - rewrite IH. unfold dict_get_default at 1. rewrite !dict_get_set.
    destruct (decide (x = t)) as [->|Hne].
    + rewrite (decide_True (P := t ∈ t :: ts)) by apply list_elem_of_here.
      destruct (decide (t ∈ ts)) as [Hin|Hnin].
      * f_equal. lia.
      * apply occurrences_zero in Hnin. rewrite Hnin. f_equal. lia.
    + destruct (decide (t ∈ ts)) as [Hin|Hnin].
      * rewrite decide_True by (by apply list_elem_of_further).
        f_equal; try (unfold dict_get_default; simpl; lia).
      * rewrite decide_False; [done|].
        rewrite not_elem_of_cons. by split.
Qed.

Lemma count_tags_NoDup c ts : forall d,
  NoDup d.*1 -> NoDup (count_tags c ts d).*1.
Proof.
  induction ts as [|x ts IH]; intros d Hd; simpl; [done|].
  by apply IH, dict_set_NoDup.
Qed.

Lemma count_tags_default c ts d t :
  dict_get_default 0 t (count_tags c ts d)
  = dict_get_default 0 t d + c * occurrences t ts.
Proof.
  unfold dict_get_default at 1. rewrite count_tags_get.
  destruct (decide (t ∈ ts)) as [Hin|Hnin]; [done|].
  apply occurrences_zero in Hnin. rewrite Hnin.
  unfold dict_get_default. lia.
Qed.

Lemma total_count_unlisted rules t :
  t ∉ rule_tags rules -> total_count rules t = 0.
Proof.
  induction rules as [|r rules IH]; simpl; [done|].
  fold (rule_tags rules). rewrite not_elem_of_app. intros [Hn1 Hn2].
  apply occurrences_zero in Hn1. rewrite Hn1, (IH Hn2). lia.
Qed.

Lemma count_rules_get rules : forall d t,
  dict_get t (count_rules rules d)
  = if decide (t ∈ rule_tags rules)
    then Some (dict_get_default 0 t d + total_count rules t)
    else dict_get t d.
Proof.
  induction rules as [|r rules IH]; intros d t;
    cbn [count_rules rule_tags flat_map total_count foldr].
  - destruct (decide (t ∈ [])) as [H|_]; [by apply elem_of_nil in H | done].
  - fold (rule_tags rules). fold (total_count rules t).
    rewrite IH, count_tags_default, count_tags_get.
    destruct (decide (t ∈ rule_tags rules)) as [Hin2|Hnin2].
    + rewrite decide_True by (apply elem_of_app; by right).
      f_equal. lia.
    + rewrite (total_count_unlisted _ _ Hnin2).
      destruct (decide (t ∈ tags r)) as [Hin|Hnin].
      * rewrite decide_True by (apply elem_of_app; by left).
        f_equal. lia.
      * rewrite decide_False; [done|].
        rewrite not_elem_of_app. by split.
Qed.

Lemma count_rules_NoDup rules : forall d,
  NoDup d.*1 -> NoDup (count_rules rules d).*1.
Proof.
  induction rules as [|r rules IH]; intros d Hd; simpl; [done|].
  by apply IH, count_tags_NoDup.
Qed.

Lemma check_items_true items cur n :
  check_items items cur n = true <->
  forall t c, (t, c) ∈ items ->
    exists m, dict_get t cur = Some m /\ length m = c * n.
Proof.
  induction items as [|[tag cnt] items IH]; simpl.
  - split; [|done]. intros _ t c Hin. by apply elem_of_nil in Hin.
  - destruct (dict_get tag cur) as [m|] eqn:Hget.
    + destruct (Nat.eqb_spec (length m) (cnt * n)) as [Heq|Hne].
      * rewrite IH. split.
        -- intros H t c [[= -> ->]|Hin]%elem_of_cons; [eauto | by apply H].
        -- intros H t c Hin. apply H. by apply list_elem_of_further.
      * split; [done|]. intros H.
        destruct (H tag cnt) as (m' & Hm' & Hlen); [apply list_elem_of_here|].
        congruence.
    + split; [done|]. intros H.
      destruct (H tag cnt) as (m' & Hm' & _); [apply list_elem_of_here|].
      congruence.
Qed.

(** [check_groups] in terms of the rules: every listed tag is a key whose
    list has the summed count times the number of hosts. *)
Lemma check_groups_true cur rules hl :
  check_groups cur rules hl = true <->
  forall t, t ∈ rule_tags rules ->
    exists m, dict_get t cur = Some m
              /\ length m = total_count rules t * length hl.
Proof.
  unfold check_groups. rewrite check_items_true. split.
  - intros H t Hin. apply H.
    apply dict_get_elem_of; [apply count_rules_NoDup, NoDup_nil_2|].
    rewrite count_rules_get. by rewrite decide_True.
  - intros H t c Hin.
    apply dict_get_elem_of in Hin; [|apply count_rules_NoDup, NoDup_nil_2].
    rewrite count_rules_get in Hin.
    destruct (decide (t ∈ rule_tags rules)) as [Ht|]; [|done].
    injection Hin as <-. by apply H.
Qed.

Lemma enough_false_iff rules : forall pool,
  enough pool rules = false <-> short pool rules.
Proof.
  induction rules as [|r rules IH]; intros pool; cbn [enough].
  - split; [done|]. by intros (i & r & Hi & _).
  - rewrite andb_false_iff, IH. split.
    + intros [Hr|(j & r' & Hj & Hts & Hlt)].
      * exists 0, r. destruct (tags r) as [|tag ts]; [done|].
        apply Nat.leb_gt in Hr. by rewrite drop_0.
      * exists (S j), r'. split_and!; [done..|].
        cbn [take sum_counts foldr]. by rewrite <- drop_drop.
    + intros ([|j] & r' & Hj & Hts & Hlt).
      * injection Hj as <-. left. rewrite drop_0 in Hlt.
        destruct (tags r); [done|]. by apply Nat.leb_gt.
      * right. exists j, r'. split_and!; [done..|].
        cbn [take sum_counts foldr] in Hlt. by rewrite <- drop_drop in Hlt.
Qed.

Lemma create_groups_Ok_enough pool rules tgt g rest :
  create_groups pool rules tgt = Ok (g, rest) -> enough pool rules = true.
Proof.
  intros Hrun. destruct (enough pool rules) eqn:Hen; [done|].
  unfold create_groups in Hrun. by rewrite rule_loop_short in Hrun.
Qed.

Lemma no_empty_group_get (g : groups_t) t :
  no_empty_group g ->
  dict_get t g = match dict_get_default [] t g with [] => None | m => Some m end.
Proof.
  intros Hg. unfold dict_get_default. specialize (Hg t).
  destruct (dict_get t g) as [[|e m]|]; done.
Qed.

Lemma group_sizes_decide (cur : groups_t) (want : pystr -> nat) (ts : list pystr) :
  (forall t, t ∈ ts -> exists m, dict_get t cur = Some m /\ length m = want t)
  \/ (exists t, t ∈ ts
        /\ (dict_get t cur = None
            \/ exists m, dict_get t cur = Some m /\ length m <> want t)).
Proof.
  induction ts as [|t ts [IH|(t' & Ht' & Hbad)]].
  - left. intros t Ht. by apply elem_of_nil in Ht.
  - destruct (dict_get t cur) as [m|] eqn:Hget.
    + destruct (decide (length m = want t)) as [Heq|Hne].
      * left. intros t' [->|Hin]%elem_of_cons; [by exists m | by apply IH].
      * right. exists t. split; [apply list_elem_of_here|]. right. by exists m.
    + right. exists t. split; [apply list_elem_of_here|]. by left.
  - right. exists t'. split; [by apply list_elem_of_further | done].
Qed.

(** ** Facts about the codecs *)

Lemma b2a_not_pad i : (b2a i =? PAD)%N = false.
Proof. unfold b2a, PAD. n_cases; first [done | exfalso; lia]. Qed.

Lemma b2a_ascii i : (b2a i <? 128)%N = true.
Proof. unfold b2a. n_cases; first [done | exfalso; lia]. Qed.

Lemma a2b_b2a i : (i < 64)%N -> a2b (b2a i) = Some i.
Proof.
  intros Hi. unfold b2a.
  destruct (N.ltb_spec i 26); [|destruct (N.ltb_spec i 52);
    [|destruct (N.ltb_spec i 62); [|destruct (N.eqb_spec i 62)]]];
    unfold a2b; n_cases; first [f_equal; lia | exfalso; lia].
Qed.

Lemma rstrip_by_keep p c s :
  p c = false -> rstrip_by p (c :: s) = c :: rstrip_by p s.
Proof. intros Hc. simpl. rewrite Hc. by destruct (rstrip_by p s). Qed.

Lemma three_step_ind (P : list N -> Prop) :
  P [] -> (forall b1, P [b1]) -> (forall b1 b2, P [b1; b2]) ->
  (forall b1 b2 b3 rest, P rest -> P (b1 :: b2 :: b3 :: rest)) ->
  forall data, P data.
Proof.
  intros H0 H1 H2 H3.
  assert (forall data, P data /\ (forall b1, P (b1 :: data))
                       /\ (forall b1 b2, P (b1 :: b2 :: data))) as H.
  { induction data as [|b data (IH0 & IH1 & IH2)]; [by split_and!|].
    split_and!; [apply IH1 | intros b1; apply IH2 | intros; by apply H3]. }
  intros data. apply H.
Qed.

Lemma unpadded_b64encode data : unpadded (b64encode data) = b64chars data.
Proof.
  unfold unpadded. induction data as [|b1|b1 b2|b1 b2 b3 rest IH] using three_step_ind.
  - done.
  - cbn [b64encode b64chars].
    rewrite !rstrip_by_keep by apply b2a_not_pad. done.
  - cbn [b64encode b64chars].
    rewrite !rstrip_by_keep by apply b2a_not_pad. done.
  - cbn [b64encode b64chars app].
    rewrite !rstrip_by_keep by apply b2a_not_pad. by rewrite IH.
Qed.

Lemma b64chars_ascii data rest :
  forallb (fun c => c <? 128)%N (b64chars data ++ rest)
  = forallb (fun c => c <? 128)%N rest.
Proof.
  induction data as [|b1|b1 b2|b1 b2 b3 data IH] using three_step_ind;
    cbn [b64chars app forallb]; rewrite ?b2a_ascii; done.
Qed.

Lemma a2b_loop_data c v data q lc pads :
  a2b c = Some v ->
  a2b_loop (c :: data) q lc pads
  = match q with
    | 0 => a2b_loop data 1 v 0
    | 1 => cons ((lc * 4 + v / 16) mod 256)%N <$> a2b_loop data 2 (v mod 16)%N 0
    | 2 => cons ((lc * 16 + v / 4) mod 256)%N <$> a2b_loop data 3 (v mod 4)%N 0
    | _ => cons ((lc * 64 + v) mod 256)%N <$> a2b_loop data 0 0%N 0
    end.
Proof.
  intros Hv. cbn [a2b_loop].
  assert ((c =? PAD)%N = false) as ->; [|by rewrite Hv].
  apply N.eqb_neq. intros ->. vm_compute in Hv. done.
Qed.

Lemma a2b_loop_b2a i data q lc pads :
  (i < 64)%N ->
  a2b_loop (b2a i :: data) q lc pads
  = match q with
    | 0 => a2b_loop data 1 i 0
    | 1 => cons ((lc * 4 + i / 16) mod 256)%N <$> a2b_loop data 2 (i mod 16)%N 0
    | 2 => cons ((lc * 16 + i / 4) mod 256)%N <$> a2b_loop data 3 (i mod 4)%N 0
    | _ => cons ((lc * 64 + i) mod 256)%N <$> a2b_loop data 0 0%N 0
    end.
Proof. intros Hi. by apply a2b_loop_data, a2b_b2a. Qed.

Lemma result_fmap_Ok {A B} (f : A -> B) (a : A) : f <$> Ok a = Ok (f a).
Proof. done. Qed.

Lemma a2b_loop_tail q lc pads :
  q <> 1 -> q < 4 -> (q = 0 \/ pads = 0) ->
  a2b_loop (str "===") q lc pads = Ok [].
Proof.
  intros H1 H4 Hp.
  destruct q as [|[|[|[|q]]]]; try lia; try reflexivity;
    destruct Hp as [Hp | ->]; try lia; reflexivity.
Qed.

Lemma b64_roundtrip data : forall lc pads,
  Forall (fun b => b < 256)%N data ->
  a2b_loop (b64chars data ++ str "===") 0 lc pads = Ok data.
Proof.
  induction data as [|b1|b1 b2|b1 b2 b3 data IH] using three_step_ind;
    intros lc pads Hb; rewrite ?Forall_cons in Hb; cbv beta in Hb.
  - apply a2b_loop_tail; lia.
  - destruct Hb as [H1 _].
    cbn [b64chars app].
    do 2 (rewrite a2b_loop_b2a by div_lia).
    rewrite a2b_loop_tail by lia. rewrite result_fmap_Ok. list_eq.
  - destruct Hb as (H1 & H2 & _).
    cbn [b64chars app].
    do 3 (rewrite a2b_loop_b2a by div_lia).
    rewrite a2b_loop_tail by lia. rewrite !result_fmap_Ok. list_eq.
  - destruct Hb as (H1 & H2 & H3 & Hb).
    cbn [b64chars app].
    do 4 (rewrite a2b_loop_b2a by div_lia).
    rewrite (IH _ _ Hb). rewrite !result_fmap_Ok. list_eq.
Qed.

(** *** UTF-8 *)

Lemma is_scalar_true c :
  is_scalar c = true <-> (c < 0xD800 \/ 0xDFFF < c /\ c < 0x110000)%N.
Proof.
  unfold is_scalar.
  rewrite orb_true_iff, andb_true_iff, !N.ltb_lt. done.
Qed.

Lemma utf8_encode_char_octets c :
  is_scalar c = true -> Forall (fun b => b < 256)%N (utf8_encode_char c).
Proof.
  intros Hc%is_scalar_true. unfold utf8_encode_char.
  destruct (N.ltb_spec c 0x80); [|destruct (N.ltb_spec c 0x800);
    [|destruct (N.ltb_spec c 0x10000)]];
    repeat (apply Forall_cons; split; [div_lia|]); apply Forall_nil_2.
Qed.

Lemma utf8_decode_encode_char c rest :
  is_scalar c = true ->
  utf8_decode (utf8_encode_char c ++ rest) = cons c <$> utf8_decode rest.
Proof.
  intros Hc%is_scalar_true. unfold utf8_encode_char.
  destruct (N.ltb_spec c 0x80); [|destruct (N.ltb_spec c 0x800);
    [|destruct (N.ltb_spec c 0x10000)]];
    cbn [app utf8_decode]; unfold is_cont, is_scalar.
  - n_decide. done.
  - n_decide. do 2 f_equal. div_lia.
  - destruct Hc as [Hc|[Hc1 Hc2]]; n_decide; do 2 f_equal; div_lia.
  - n_decide. do 2 f_equal. div_lia.
Qed.

Lemma utf8_roundtrip s :
  Forall (fun c => is_scalar c = true) s ->
  utf8_decode (utf8_encode s) = Ok s.
Proof.
  induction 1 as [|c s Hc Hs IH]; [done|].
  unfold utf8_encode in *. cbn [flat_map].
  by rewrite utf8_decode_encode_char, IH.
Qed.

Lemma utf8_encode_octets s :
  Forall (fun c => is_scalar c = true) s ->
  Forall (fun b => b < 256)%N (utf8_encode s).
Proof.
  induction 1 as [|c s Hc Hs IH]; [apply Forall_nil_2|].
  unfold utf8_encode in *. cbn [flat_map].
  apply Forall_app. split; [by apply utf8_encode_char_octets | done].
Qed.

(** *** [rstrip] *)

Lemma rstrip_by_id p s :
  (forall c, last s = Some c -> p c = false) -> rstrip_by p s = s.
Proof.
  induction s as [|c s IH]; intros Hlast; [done|].
  cbn [rstrip_by]. destruct s as [|c' s].
  - simpl. by rewrite Hlast.
  - rewrite IH; [done|]. intros c0 Hc0. apply Hlast. done.
Qed.

Lemma b64decode_unpadded data :
  Forall (fun b => b < 256)%N data ->
  b64decode (unpadded (b64encode data) ++ str "===") = Ok data.
Proof.
  intros Hd. unfold b64decode.
  rewrite unpadded_b64encode, b64chars_ascii.
  change (forallb (fun c => c <? 128)%N (str "===")) with true.
  by apply b64_roundtrip.
Qed.

(** ** Facts about [split] and the Conjur resolver *)

(** *** [split] *)

Lemma starts_with_true sep : forall s,
  starts_with sep s = true -> exists rest, s = sep ++ rest.
Proof.
  induction sep as [|a sep IH]; intros s Hs; simpl in *.
  - by exists s.
  - destruct s as [|b s]; [done|].
    apply andb_prop in Hs as [Hab Hs]. apply N.eqb_eq in Hab as ->.
    destruct (IH _ Hs) as [rest ->]. by exists rest.
Qed.

Lemma occurs_in_cons sep c s : occurs_in sep s -> occurs_in sep (c :: s).
Proof. intros (before & after & ->). by exists (c :: before), after. Qed.

Lemma split_go_absent sep : forall s cur,
  ~ occurs_in sep s -> split_go sep s 0 cur = [cur ++ s].
Proof.
  induction s as [|c s IH]; intros cur Hno; cbn [split_go].
  - by rewrite app_nil_r.
  - destruct (starts_with sep (c :: s)) eqn:Hsw.
    + destruct Hno. apply starts_with_true in Hsw as [rest ->].
      by exists [], rest.
    + rewrite IH, <- app_assoc; [done|].
      intros Hocc. by apply Hno, occurs_in_cons.
Qed.

Lemma split_absent sep s : ~ occurs_in sep s -> split sep s !! 1 = None.
Proof. intros Hno. unfold split. by rewrite split_go_absent. Qed.

Lemma starts_with_app sep after : starts_with sep (sep ++ after) = true.
Proof. induction sep as [|a sep IH]; simpl; [done|]. by rewrite N.eqb_refl. Qed.

Lemma split_go_length sep s : forall skip cur,
  1 <= length (split_go sep s skip cur).
Proof.
  induction s as [|c s IH]; intros skip cur; cbn [split_go]; [simpl; lia|].
  destruct skip; [|apply IH].
  destruct (starts_with sep (c :: s)); [simpl; lia | apply IH].
Qed.

Lemma split_go_occurs sep before after : forall cur,
  sep <> [] -> 2 <= length (split_go sep (before ++ sep ++ after) 0 cur).
Proof.
  intros cur Hsep. revert cur.
  induction before as [|c before IH]; intros cur.
  - destruct sep as [|a sep]; [done|].
    change ([] ++ (a :: sep) ++ after) with (a :: (sep ++ after)).
    cbn [split_go]. change (a :: (sep ++ after)) with ((a :: sep) ++ after).
    rewrite starts_with_app. cbn [length].
    match goal with
    | |- context [split_go ?x ?y ?k ?z] => pose proof (split_go_length x y k z)
    end. lia.
  - change ((c :: before) ++ sep ++ after) with (c :: (before ++ sep ++ after)).
    cbn [split_go]. destruct (starts_with sep _); [|apply IH].
    cbn [length].
    match goal with
    | |- context [split_go ?x ?y ?k ?z] => pose proof (split_go_length x y k z)
    end. lia.
Qed.

Lemma split_marker sep s :
  sep <> [] -> (split sep s !! 1 = None <-> ~ occurs_in sep s).
Proof.
  intros Hsep. split; [|apply split_absent].
  intros Hnone (before & after & ->).
  apply lookup_ge_None in Hnone. unfold split in Hnone.
  pose proof (split_go_occurs sep before after [] Hsep). lia.
Qed.

(** *** The Conjur resolver *)

Lemma conjur_loop_no_marker W address account token verify items :
  forall acc,
  (exists key ref, (key, ref) ∈ items /\ ~ occurs_in (str "!var") ref) ->
  exists e,
    (conjur_loop W address account token verify items acc).2 = Raise e
    /\ ((forall rq, exists r, requests_get W rq = Ok r) -> e = IndexError).
Proof.
  induction items as [|[key ref] items IH]; intros acc (k & r & Hin & Hno).
  - by apply elem_of_nil in Hin.
  - cbn [conjur_loop].
    destruct (split (str "!var") ref !! 1) as [piece|] eqn:Hsplit.
    + apply elem_of_cons in Hin as [[= -> ->]|Hin].
      { by rewrite split_absent in Hsplit. }
      destruct (requests_get W _) as [resp|e] eqn:Hget.
      * destruct (IH (dict_set key (VStr (text resp)) acc)) as (e & He & Hidx);
          [by exists k, r|].
        destruct (conjur_loop W address account token verify items _) as [sent res].
        exists e. done.
      * exists e. split; [done|]. intros Hall.
        destruct (Hall (conjur_request address account token verify (strip piece)))
          as [r' Hr']. congruence.
    + exists IndexError. done.
Qed.

Lemma conjur_loop_verify W address account token verify items : forall acc,
  Forall (fun rq => req_verify rq = verify)
    (conjur_loop W address account token verify items acc).1.
Proof.
  induction items as [|[key ref] items IH]; intros acc; cbn [conjur_loop].
  - apply Forall_nil_2.
  - destruct (split (str "!var") ref !! 1) as [piece|]; [|apply Forall_nil_2].
    destruct (requests_get W _) as [resp|e].
    + specialize (IH (dict_set key (VStr (text resp)) acc)).
      destruct (conjur_loop W address account token verify items _) as [sent res].
      apply Forall_cons. done.
    + apply Forall_cons. split; [done | apply Forall_nil_2].
Qed.

Lemma eq_nocase_lower s t :
  Forall (fun b => lower_char b = b) t ->
  (eq_nocase s t <-> lower s = t).
Proof.
  intros Ht. unfold eq_nocase, lower. split.
  - intros H. induction H as [|a b s t Hab Hst IH]; [done|].
    apply Forall_cons in Ht as [Hb Ht]. simpl. f_equal; [|by apply IH].
    destruct Hab as [-> | [<- | ->]]; try done.
    unfold lower_char in *. n_cases; lia.
  - intros <-. clear Ht. induction s as [|a s IH]; [constructor|].
    constructor; [|done]. right. by left.
Qed.

(** ** Facts about failing resolvers *)

(** *** What the decoders raise *)

Lemma result_fmap_Raise {A B} (f : A -> B) (m : result A) e :
  f <$> m = Raise e -> m = Raise e.
Proof. destruct m; cbv [fmap result_fmap]; congruence. Qed.

Lemma a2b_loop_raises data : forall q lc pads e,
  a2b_loop data q lc pads = Raise e -> e = BinasciiError.
Proof.
  induction data as [|c data IH]; intros q lc pads e; cbn [a2b_loop].
  - destruct q; [done | by intros [= <-]].
  - destruct (c =? PAD)%N.
    + destruct (_ && _); [done | apply IH].
    + destruct (a2b c) as [v|]; [|apply IH].
      destruct q as [|[|[|q]]]; [apply IH|..];
        intros H%result_fmap_Raise; by apply IH in H.
Qed.

Lemma utf8_decode_raises e : forall n data,
  length data <= n -> utf8_decode data = Raise e -> e = UnicodeDecodeError.
Proof.
  induction n as [|n IH]; intros data Hlen.
  - destruct data; [done | simpl in Hlen; lia].
  - destruct data as [|b1 r1]; [done|]. cbn [utf8_decode]. simpl in Hlen.
    repeat case_match; subst; simpl in Hlen;
      try (by intros [= <-]);
      intros Hraise%result_fmap_Raise; apply IH in Hraise; (done || lia).
Qed.

Lemma decode_secret_raises secret e :
  decode_secret secret = Raise e -> is_Exception e = true.
Proof.
  unfold decode_secret, b64decode.
  destruct (forallb _ _); [|by intros [= <-]].
  destruct (a2b_loop _ 0 0%N 0) as [data|e'] eqn:Hb; cbn [mbind result_bind].
  - intros H%result_fmap_Raise.
    by apply (utf8_decode_raises e _ _ (Nat.le_refl _)) in H as ->.
  - intros [= <-]. by apply a2b_loop_raises in Hb as ->.
Qed.

(** *** All or nothing *)

Lemma base64_loop_raises items : forall acc,
  (exists key ref e, (key, ref) ∈ items /\ decode_secret ref = Raise e) ->
  exists cause,
    base64_loop items acc
    = Raise (AnsibleParserError (str "Could not decode secret") cause)
    /\ exists key ref, (key, ref) ∈ items /\ decode_secret ref = Raise cause.
Proof.
  induction items as [|[key ref] items IH]; intros acc (k & r & e & Hin & He).
  - by apply elem_of_nil in Hin.
  - cbn [base64_loop]. destruct (decode_secret ref) as [value|e'] eqn:Hd.
    + apply elem_of_cons in Hin as [[= -> ->]|Hin]; [congruence|].
      destruct (IH (dict_set key (VStr value) acc)) as (cause & Hc & k' & r' & Hin' & Hd');
        [by exists k, r, e|].
      exists cause. split; [done|]. exists k', r'.
      split; [by apply list_elem_of_further | done].
    + rewrite (decode_secret_raises _ _ Hd). exists e'. split; [done|].
      exists key, ref. split; [apply list_elem_of_here | done].
Qed.

Lemma first_error_cons error key ref items e :
  error ref = None -> first_error error items e ->
  first_error error ((key, ref) :: items) e.
Proof.
  intros Hok (before & k & r & after & -> & Hbefore & He).
  exists ((key, ref) :: before), k, r, after.
  split; [done|]. split; [|done]. by apply Forall_cons.
Qed.

Lemma first_error_here error key ref items e :
  error ref = Some e -> first_error error ((key, ref) :: items) e.
Proof. intros He. exists [], key, ref, items. by split; [|split]. Qed.

Lemma conjur_loop_first_error W address account token verify items :
  forall acc,
  (exists key ref, (key, ref) ∈ items
     /\ conjur_entry_raises W address account token verify ref) ->
  exists e,
    first_error (conjur_entry_error W address account token verify) items e
    /\ (conjur_loop W address account token verify items acc).2 = Raise e.
Proof.
  induction items as [|[key ref] items IH]; intros acc (k & r & Hin & Hbad).
  - by apply elem_of_nil in Hin.
  - cbn [conjur_loop]. unfold conjur_entry_raises in Hbad.
    destruct (split (str "!var") ref !! 1) as [piece|] eqn:Hsplit.
    + destruct (requests_get W _) as [resp|e] eqn:Hget.
      * apply elem_of_cons in Hin as [[= -> ->]|Hin].
        { rewrite Hsplit in Hbad. destruct Hbad as [e He]. congruence. }
        destruct (IH (dict_set key (VStr (text resp)) acc)) as (e & Hfirst & He);
          [by exists k, r|].
        destruct (conjur_loop W address account token verify items _)
          as [sent res].
        exists e. split; [|done]. apply first_error_cons; [|done].
        unfold conjur_entry_error. by rewrite Hsplit, Hget.
      * exists e. split; [|done]. apply first_error_here.
        unfold conjur_entry_error. by rewrite Hsplit, Hget.
    + exists IndexError. split; [|done]. apply first_error_here.
      unfold conjur_entry_error. by rewrite Hsplit.
Qed.

Lemma vault_loop_first_error W address token items : forall acc,
  (exists key ref, (key, ref) ∈ items /\ vault_entry_raises W address token ref) ->
  exists e,
    first_error (vault_entry_error W address token) items e
    /\ vault_loop W address token items acc = Raise e.
Proof.
  induction items as [|[key ref] items IH]; intros acc (k & r & Hin & Hbad).
  - by apply elem_of_nil in Hin.
  - cbn [vault_loop].
    destruct (hvac_read W address token ref) as [[data|]|e] eqn:Hread;
      cbn [mbind result_bind].
    + apply elem_of_cons in Hin as [[= -> ->]|Hin].
      { destruct Hbad as [Hb|[e Hb]]; congruence. }
      destruct (IH (vault_store data acc)) as (e & Hfirst & He);
        [by exists k, r|].
      exists e. split; [|done]. apply first_error_cons; [|done].
      unfold vault_entry_error. by rewrite Hread.
    + exists TypeError. split; [|done]. apply first_error_here.
      unfold vault_entry_error. by rewrite Hread.
    + exists e. split; [|done]. apply first_error_here.
      unfold vault_entry_error. by rewrite Hread.
Qed.

(** ** Facts about [parse] *)

Section ParseFacts.
Context (W : World) (opts : Options).

Lemma parse_definition_valid name service index sd groups :
  definition_valid groups sd ->
  let p := parse_definition W opts name service index sd groups in
  p_groups p = groups /\ p_writes p = [].
Proof.
  intros Hv. unfold parse_definition. unfold definition_valid, grouped in Hv.
  destruct (hasattr (sd_hosts sd) && dict_mem _ _) eqn:Hg.
  - destruct (Hv eq_refl) as (hl & rules & Hh & Hr & Hc).
    unfold reconcile_groups. rewrite Hh, Hr, Hc.
    by destruct (publish_groups W opts sd groups) as [evs r].
  - by destruct (publish_service W opts service index sd) as [evs r].
Qed.

Lemma and_then_valid p step groups :
  p_groups p = groups -> p_writes p = [] ->
  (p_groups (step groups) = groups /\ p_writes (step groups) = []) ->
  p_groups (and_then p step) = groups /\ p_writes (and_then p step) = [].
Proof.
  intros Hg Hw [Hg' Hw']. unfold and_then.
  destruct (p_outcome p); [|done]. simpl. by rewrite Hg, Hw, Hg', Hw'.
Qed.

Lemma parse_definitions_valid name service defs groups : forall index,
  Forall (definition_valid groups) defs ->
  let p := parse_definitions W opts name service index defs groups in
  p_groups p = groups /\ p_writes p = [].
Proof.
  induction defs as [|sd defs IH]; intros index Hv; [done|].
  apply Forall_cons in Hv as [Hsd Hdefs]. cbn [parse_definitions].
  destruct (parse_definition_valid name service index sd groups Hsd).
  apply and_then_valid; [done..|]. by apply IH.
Qed.

Lemma parse_services_valid name services groups :
  Forall (fun svc => Forall (definition_valid groups) svc.2) services ->
  let p := parse_services W opts name services groups in
  p_groups p = groups /\ p_writes p = [].
Proof.
  induction services as [|[service defs] services IH]; intros Hv; [done|].
  apply Forall_cons in Hv as [Hdefs Hv]. cbn [parse_services].
  destruct (parse_definitions_valid name service defs groups 0 Hdefs).
  apply and_then_valid; [done..|]. by apply IH.
Qed.

Lemma parse_valid inst :
  instance_valid inst -> p_writes (parse W opts inst) = [].
Proof.
  intros Hv. unfold parse.
  destruct (parse_services_valid (si_name inst) (si_services inst)
              (si_groups inst) Hv) as [_ Hw].
  destruct (p_outcome _) as [|e]; [done|]. by destruct (is_Exception e).
Qed.

End ParseFacts.

(** ** Facts about the requests of the Conjur resolver *)

Lemma dict_set_fresh {V} (k : pystr) (v : V) (d : dict pystr V) :
  k ∉ d.*1 -> dict_set k v d = d ++ [(k, v)].
Proof.
  induction d as [|[k' v'] d IH]; simpl; [done|].
  rewrite not_elem_of_cons. intros [Hne Hnin].
  rewrite decide_False by done. by rewrite IH.
Qed.

Lemma dict_set_elem {V} (k : pystr) (v : V) (d : dict pystr V) kv :
  kv ∈ dict_set k v d -> kv = (k, v) \/ kv ∈ d.
Proof.
  induction d as [|[k' v'] d IH]; simpl.
  - intros ->%list_elem_of_singleton. by left.
  - destruct (decide (k' = k)) as [->|Hne].
    + intros [->|Hin]%elem_of_cons; [by left|].
      right. by apply list_elem_of_further.
    + intros [->|Hin]%elem_of_cons; [right; apply list_elem_of_here|].
      destruct (IH Hin) as [->|Hd]; [by left|].
      right. by apply list_elem_of_further.
Qed.

Section ConjurBatch.
Context (W : World) (address account : pystr) (token : list N) (verify : pyval).

Lemma conjur_loop_requests items : forall acc,
  let run := conjur_loop W address account token verify items acc in
  run.1 `prefix_of`
    map (fun kr => conjur_request address account token verify
                     (conjur_path kr.2)) items
  /\ forall resolved, run.2 = Ok resolved ->
       run.1 = map (fun kr => conjur_request address account token verify
                                (conjur_path kr.2)) items
       /\ (NoDup (acc.*1 ++ items.*1) ->
           exists tail,
             resolved = acc ++ tail
             /\ Forall2
                  (replied_to W (conjur_request address account token verify))
                  items tail).
Proof.
  induction items as [|[key ref] items IH]; intros acc; cbn [conjur_loop map].
  - split; [done|]. intros resolved [= <-]. split; [done|].
    intros _. exists []. by rewrite app_nil_r.
  - unfold conjur_path at 1 3. cbn [snd].
    destruct (split (str "!var") ref !! 1) as [piece|] eqn:Hsplit;
      [|split; [apply prefix_nil | done]].
    cbn [default].
    destruct (requests_get W
                (conjur_request address account token verify (strip piece)))
      as [resp|e] eqn:Hget.
    + specialize (IH (dict_set key (VStr (text resp)) acc)).
      destruct (conjur_loop W address account token verify items _)
        as [sent res]. cbn [fst snd] in *. destruct IH as [Hpre Hok].
      split; [by apply prefix_cons|].
      intros resolved ->. destruct (Hok _ eq_refl) as [-> Hres].
      split; [done|]. intros Hnd.
      assert (key ∉ acc.*1) as Hfresh.
      { apply NoDup_app in Hnd as (_ & Hdisj & _). intros Hin.
        apply (Hdisj key Hin). simpl. apply list_elem_of_here. }
      rewrite dict_set_fresh in Hres by done.
      destruct Hres as (tail & -> & Htail).
      { by rewrite fmap_app, <- app_assoc. }
      exists ((key, VStr (text resp)) :: tail). rewrite <- app_assoc.
      split; [done|]. constructor; [|done]. split; [done|].
      exists resp. unfold conjur_path. cbn [snd]. rewrite Hsplit. done.
    + split; [|done]. apply prefix_cons, prefix_nil.
Qed.

End ConjurBatch.

(** ** The claims *)

(** *** Scenarios of the specification *)

Example create_groups_scenario :
  create_groups scenario_pool scenario_rules target1
  = Ok ([ (tag_web, [member host1 target1; member host2 target1]);
          (tag_db, [member host3 target1]) ],
        [host4]).
Proof. reflexivity. Qed.

Example base64_scenario :
  get_base64_secrets (secret_service [(str "pw", str "cGFzcw")])
  = Ok [(str "pw", VStr (str "pass"))].
Proof. reflexivity. Qed.

(** *** C1: what [create_groups] consumes *)

(** Claim C1, as amended.  When the pool holds at least the sum of the counts
    of the rules, [create_groups] returns.  The pool it leaves is the pool
    without its first [sum_counts rules] hosts: the sum of [count] over the
    rules is consumed, once for each rule and not once for each tag.  The
    rules are taken in order and each takes the first [count] hosts of the
    pool it meets ([rule_segments]); every tag holds, for each rule that
    lists it, entries for all the hosts of that rule ([assigned]), so the
    tags of one rule share its hosts.  The hosts of the rules, one rule after
    the other, are the consumed prefix of the pool: no host is taken by two
    rules when the pool names no host twice.  A tag is a key of the result
    exactly when it was given an entry. *)
Theorem create_groups_takes_count_once_per_rule pool rules tgt :
  sum_counts rules <= length pool ->
  exists groups,
    create_groups pool rules tgt = Ok (groups, drop (sum_counts rules) pool)
    /\ length pool = sum_counts rules + length (drop (sum_counts rules) pool)
    /\ (forall t,
          dict_get_default [] t groups = assigned pool rules tgt t
          /\ (dict_mem t groups = true <-> assigned pool rules tgt t <> []))
    /\ concat (rule_segments pool rules) = take (sum_counts rules) pool
    /\ (NoDup pool -> NoDup (concat (rule_segments pool rules))).
Proof.
  intros Hle.
  destruct (rule_loop_ok rules pool tgt [] (sum_counts_enough _ _ Hle))
    as (g & Hrun & Hne & Hget).
  exists g. split_and!; [done| rewrite length_drop; lia | |
                        apply rule_segments_concat |
                        apply rule_segments_NoDup].
  intros t. rewrite Hget. split; [done|].
  unfold dict_mem. rewrite no_empty_group_get, Hget by (by apply Hne).
  simpl. by destruct (assigned pool rules tgt t).
Qed.

Lemma create_groups_takes_count_once_per_rule_witness :
  sum_counts scenario_rules <= length scenario_pool
  /\ exists groups,
       create_groups scenario_pool scenario_rules target1
       = Ok (groups, drop (sum_counts scenario_rules) scenario_pool)
       /\ length scenario_pool
          = sum_counts scenario_rules
            + length (drop (sum_counts scenario_rules) scenario_pool)
       /\ (forall t,
             dict_get_default [] t groups
             = assigned scenario_pool scenario_rules target1 t
             /\ (dict_mem t groups = true
                 <-> assigned scenario_pool scenario_rules target1 t <> []))
       /\ concat (rule_segments scenario_pool scenario_rules)
          = take (sum_counts scenario_rules) scenario_pool
       /\ (NoDup scenario_pool ->
           NoDup (concat (rule_segments scenario_pool scenario_rules))).
Proof.
  assert (sum_counts scenario_rules <= length scenario_pool) as Hle
    by (vm_compute; lia).
  split; [exact Hle|].
  exact (create_groups_takes_count_once_per_rule
           scenario_pool scenario_rules target1 Hle).
Defined.

(** Claim C1 as stated fails: a rule with two tags and count 1 takes one host
    from a pool of four, not two, and both tags are given that same host. *)
Lemma create_groups_shares_hosts_between_tags :
  create_groups scenario_pool [rule [tag_web; tag_db] 1] target1
  = Ok ([ (tag_web, [member host1 target1]); (tag_db, [member host1 target1]) ],
        [host2; host3; host4])
  /\ length scenario_pool - length [host2; host3; host4]
     <> tagged_demand [rule [tag_web; tag_db] 1].
Proof. split; [reflexivity | vm_compute; lia]. Qed.

(** *** C2: validating what [create_groups] returned *)

(** How far the defect behind claim C2 reaches.  When [create_groups]
    returns, [check_groups] on its groups, the same rules and the pool as it
    was before the call returns [True] if and only if every tag the rules
    list has a summed count of at least 1 and, unless the rules list no tag
    at all, the pool holds exactly one host. *)
Theorem check_groups_after_create_groups pool rules tgt groups rest :
  create_groups pool rules tgt = Ok (groups, rest) ->
  (check_groups groups rules pool = true <->
   (forall t, t ∈ rule_tags rules -> 1 <= total_count rules t)
   /\ (rule_tags rules = [] \/ length pool = 1)).
Proof.
  intros Hrun. pose proof (create_groups_Ok_enough _ _ _ _ _ Hrun) as Hen.
  destruct (rule_loop_ok rules pool tgt [] Hen) as (g & Hg & Hne & Hget).
  unfold create_groups in Hrun. rewrite Hg in Hrun. injection Hrun as <- <-.
  assert (forall t, dict_get t g
            = match assigned pool rules tgt t with [] => None | m => Some m end)
    as Hlook.
  { intros t. rewrite no_empty_group_get, Hget by (by apply Hne). done. }
  rewrite check_groups_true. split.
  - intros Hall.
    assert (forall t, t ∈ rule_tags rules ->
              1 <= total_count rules t /\ length pool = 1) as Hboth.
    { intros t Ht. destruct (Hall t Ht) as (m & Hm & Hlen).
      rewrite Hlook in Hm.
      pose proof (assigned_length rules pool tgt t Hen) as Hal.
      destruct (assigned pool rules tgt t) as [|e m'] eqn:Has; [done|].
      injection Hm as <-. simpl in *. nia. }
    split; [intros t Ht; by apply Hboth|].
    destruct (rule_tags rules) as [|t ts]; [by left|].
    right. apply (Hboth t), list_elem_of_here.
  - intros [Hpos Hone] t Ht.
    destruct Hone as [Hnil|Hone]; [rewrite Hnil in Ht; by apply elem_of_nil in Ht|].
    pose proof (assigned_length rules pool tgt t Hen) as Hal.
    specialize (Hpos t Ht). rewrite Hlook.
    destruct (assigned pool rules tgt t) as [|e m'] eqn:Has; [simpl in Hal; lia|].
    eexists. split; [done|]. rewrite Hal, Hone. lia.
Qed.


Lemma check_groups_after_create_groups_witness :
  create_groups [host1] [rule [tag_web] 1] target1
  = Ok ([(tag_web, [member host1 target1])], [])
  /\ (check_groups [(tag_web, [member host1 target1])] [rule [tag_web] 1] [host1]
      = true
      <-> (forall t, t ∈ rule_tags [rule [tag_web] 1] ->
                     1 <= total_count [rule [tag_web] 1] t)
          /\ (rule_tags [rule [tag_web] 1] = [] \/ length [host1] = 1)).
Proof.
  assert (create_groups [host1] [rule [tag_web] 1] target1
          = Ok ([(tag_web, [member host1 target1])], [])) as Hrun
    by reflexivity.
  split; [exact Hrun|].
  exact (check_groups_after_create_groups _ _ _ _ _ Hrun).
Defined.

(** Claim C2.  The code breaks the claim on the scenario of the
    specification: [create_groups] returns for four hosts, two for ["web"]
    and one for ["db"], and [check_groups] on the groups just computed, the
    same rules and the same four hosts returns [False], since ["web"] holds
    2 entries where [check_groups] wants 2 times 4. *)
Lemma check_groups_rejects_fresh_groups :
  create_groups scenario_pool scenario_rules target1
  = Ok ([ (tag_web, [member host1 target1; member host2 target1]);
          (tag_db, [member host3 target1]) ],
        [host4])
  /\ check_groups
       [ (tag_web, [member host1 target1; member host2 target1]);
         (tag_db, [member host3 target1]) ]
       scenario_rules scenario_pool
     = false.
Proof. split; reflexivity. Qed.

(** *** C3: a pool that is too short *)

(** Claim C3, as amended.  [create_groups] ends with [exit(1)] exactly when
    some rule that lists at least one tag is reached with fewer hosts left
    than its count; the call then returns no groups.  In [parse] such a
    service definition causes no [put_stack_instance] and leaves
    [stack_instance.groups] as it was; when [check_groups] had returned
    [False] the pass ends there with [SystemExit] and publishes nothing for
    the definition. *)
Theorem create_groups_exits_when_short pool rules tgt :
  (create_groups pool rules tgt = Raise (SystemExit 1) <-> short pool rules)
  /\ (short pool rules ->
      forall W opts name service index sd groups,
        sd_hosts sd = AttrVal pool ->
        dict_get (str "stackl_inventory_groups") (provisioning_parameters sd)
          = Some (VRules rules) ->
        infrastructure_target sd = tgt ->
        let p := parse_definition W opts name service index sd groups in
        p_groups p = groups /\ p_writes p = []
        /\ (check_groups groups rules pool = false ->
            p_events p = [] /\ p_outcome p = Raise (SystemExit 1))).
Proof.
  assert (create_groups pool rules tgt = Raise (SystemExit 1) <-> short pool rules)
    as Hiff.
  { rewrite <- enough_false_iff. split.
    - intros Hrun. destruct (enough pool rules) eqn:Hen; [|done].
      destruct (rule_loop_ok rules pool tgt [] Hen) as (g & Hg & _).
      unfold create_groups in Hrun. congruence.
    - apply rule_loop_short. }
  split; [done|]. intros Hshort W opts name service index sd groups Hh Hp Ht.
  apply Hiff in Hshort.
  unfold parse_definition, reconcile_groups, dict_mem.
  rewrite Hh, Hp, Ht. simpl.
  destruct (check_groups groups rules pool) eqn:Hchk.
  - destruct (publish_groups W opts sd groups) as [evs r]. simpl. done.
  - rewrite Hshort. simpl. done.
Qed.

Lemma create_groups_exits_when_short_witness :
  short [host1] [rule [tag_web] 2]
  /\ create_groups [host1] [rule [tag_web] 2] target1 = Raise (SystemExit 1)
  /\ p_writes (parse_definition answering_world (sample_options (str "base64"))
                 (str "instance-1") (str "app") 0
                 (grouped_service [host1] [rule [tag_web] 2]) [])
     = [].
Proof.
  assert (short [host1] [rule [tag_web] 2]) as Hshort.
  { exists 0, (rule [tag_web] 2). split; [reflexivity|].
    split; [discriminate | vm_compute; lia]. }
  destruct (create_groups_exits_when_short [host1] [rule [tag_web] 2] target1)
    as [Hexit Hpass].
  split; [exact Hshort|]. split; [exact (proj2 Hexit Hshort)|].
  exact (proj1 (proj2 (Hpass Hshort answering_world
                         (sample_options (str "base64")) (str "instance-1")
                         (str "app") 0
                         (grouped_service [host1] [rule [tag_web] 2]) []
                         eq_refl eq_refl eq_refl))).
Defined.

(** Claim C3 as stated fails: with a pool of one host, a rule of count 2 that
    lists no tag does not fail; the call returns empty groups and an empty
    pool. *)
Lemma create_groups_untagged_rule_returns :
  create_groups [host1] [rule [] 2] target1 = Ok ([], []).
Proof. reflexivity. Qed.

(** *** C4: when [check_groups] returns [False] *)

(** Claim C4, as amended.  [check_groups] returns [False] if and only if some
    tag listed by the rules is missing from the current groups or holds a
    number of entries that differs from the expected one, which is the sum of
    [count] over every listing of the tag in the rules, times the number of
    hosts. *)
Theorem check_groups_false_iff cur rules hl :
  check_groups cur rules hl = false <->
  exists t, t ∈ rule_tags rules
    /\ (dict_get t cur = None
        \/ exists m, dict_get t cur = Some m
                     /\ length m <> total_count rules t * length hl).
Proof.
  rewrite <- not_true_iff_false, check_groups_true. split.
  - intros Hn.
    destruct (group_sizes_decide cur
                (fun t => total_count rules t * length hl) (rule_tags rules))
      as [Hall|Hbad]; [by destruct Hn | done].
  - intros (t & Ht & Hbad) Hall. destruct (Hall t Ht) as (m & Hm & Hlen).
    destruct Hbad as [Hnone|(m' & Hm' & Hne)]; congruence.
Qed.

Lemma check_groups_false_iff_witness :
  check_groups [] [rule [tag_web] 1] [host1] = false.
Proof.
  apply (proj2 (check_groups_false_iff [] [rule [tag_web] 1] [host1])).
  exists tag_web. split; [apply list_elem_of_here | left; reflexivity].
Defined.

(** Claim C4 as stated fails when two rules list the same tag: with counts 1
    and 2 and one host, three entries validate, although their number is
    neither 1 times 1 nor 2 times 1. *)
Lemma check_groups_sums_shared_tag :
  check_groups
    [(tag_web, [member host1 target1; member host2 target1; member host3 target1])]
    [rule [tag_web] 1; rule [tag_web] 2] [host1]
  = true
  /\ Forall (fun r => 3 <> count r * length [host1])
       [rule [tag_web] 1; rule [tag_web] 2].
Proof.
  split; [reflexivity|].
  repeat (apply Forall_cons; split; [vm_compute; lia|]). apply Forall_nil_2.
Qed.

(** *** C5: a pass over an assignment that is already valid *)

(** Claim C5.  When [check_groups] returns [True] for every grouped service
    definition of the stored instance, a pass calls [put_stack_instance] not
    once, the store holds the same instance afterwards, and a second pass
    over it equals the first: the same calls on the inventory, in the same
    order, and again no write.  The collaborators answer equal calls equally
    in both passes. *)
Theorem reconcile_valid_no_write W opts store_put inst :
  instance_valid inst ->
  let first := reconcile W opts store_put inst in
  p_writes first.1 = []
  /\ first.2 = inst
  /\ reconcile W opts store_put first.2 = first.
Proof.
  intros Hv. unfold reconcile. cbn [fst snd].
  rewrite (parse_valid W opts inst Hv). cbn [store_after foldl].
  rewrite (parse_valid W opts inst Hv). done.
Qed.

Lemma reconcile_valid_no_write_witness :
  instance_valid settled_instance
  /\ (let first := reconcile answering_world (sample_options (str "base64"))
                     keep_groups settled_instance in
      p_writes first.1 = []
      /\ first.2 = settled_instance
      /\ reconcile answering_world (sample_options (str "base64")) keep_groups
           first.2
         = first).
Proof.
  assert (instance_valid settled_instance) as Hvalid.
  { apply Forall_cons. split; [|apply Forall_nil_2].
    apply Forall_cons. split; [|apply Forall_nil_2].
    intros _. exists [host1], [rule [tag_web] 1].
    split; [reflexivity|]. split; reflexivity. }
  split; [exact Hvalid|].
  exact (reconcile_valid_no_write answering_world
           (sample_options (str "base64")) keep_groups settled_instance Hvalid).
Defined.

(** *** C6: base64 references without padding *)

(** Claim C6, as amended.  For every string of code points that UTF-8 can
    encode and whose last character is not white space, encoding it in
    UTF-8, then in base64, and removing the padding gives a reference that
    the base64 resolver decodes to the string itself: [get_base64_secrets]
    returns the string under the key of the reference.  The resolver appends
    three padding characters to every reference and strips trailing white
    space from what it decoded. *)
Theorem base64_secret_roundtrip s :
  Forall (fun c => is_scalar c = true) s ->
  (forall c, last s = Some c -> is_space c = false) ->
  decode_secret (unpadded (b64encode (utf8_encode s))) = Ok s
  /\ forall service key,
       sd_secrets service
       = AttrVal [(key, unpadded (b64encode (utf8_encode s)))] ->
       get_base64_secrets service = Ok [(key, VStr s)].
Proof.
  intros Hs Hlast.
  assert (decode_secret (unpadded (b64encode (utf8_encode s))) = Ok s) as Hd.
  { unfold decode_secret.
    rewrite b64decode_unpadded by (by apply utf8_encode_octets).
    cbn [mbind result_bind]. rewrite utf8_roundtrip by done.
    rewrite result_fmap_Ok. unfold rstrip. by rewrite rstrip_by_id. }
  split; [exact Hd|]. intros service key Hsecrets.
  unfold get_base64_secrets. rewrite Hsecrets. cbn [base64_loop].
  by rewrite Hd.
Qed.

Lemma base64_secret_roundtrip_witness :
  Forall (fun c => is_scalar c = true) [0x20AC; 0xE9; 0x1F600; 65]%N
  /\ (forall c, last [0x20AC; 0xE9; 0x1F600; 65]%N = Some c -> is_space c = false)
  /\ decode_secret
       (unpadded (b64encode (utf8_encode [0x20AC; 0xE9; 0x1F600; 65]%N)))
     = Ok [0x20AC; 0xE9; 0x1F600; 65]%N.
Proof.
  assert (Forall (fun c => is_scalar c = true) [0x20AC; 0xE9; 0x1F600; 65]%N)
    as Hscalar by (repeat constructor).
  assert (forall c, last [0x20AC; 0xE9; 0x1F600; 65]%N = Some c ->
                    is_space c = false) as Hlast.
  { intros c Hc. injection Hc as <-. reflexivity. }
  split; [exact Hscalar|]. split; [exact Hlast|].
  exact (proj1 (base64_secret_roundtrip _ Hscalar Hlast)).
Defined.

(** Claim C6 as stated fails on a printable string that ends with a space:
    the reference made of ["a "] resolves to ["a"]. *)
Lemma base64_secret_loses_trailing_space :
  unpadded (b64encode (utf8_encode (str "a "))) = str "YSA"
  /\ get_base64_secrets (secret_service [(str "pw", str "YSA")])
     = Ok [(str "pw", VStr (str "a"))]
  /\ str "a" <> str "a ".
Proof. split; [reflexivity|]. split; [reflexivity | discriminate]. Qed.

(** *** C7: all or nothing *)

(** Claim C7, as amended.  A batch with a reference whose resolution raises
    is not resolved in part.  The base64 resolver raises
    [AnsibleParserError("Could not decode secret")] with the decoding error
    of a reference of the batch as its context.  The Conjur and the Vault
    resolver let the exception through: when the token cannot be read they
    raise what reading it raised, and otherwise they raise what the first
    reference of the batch that fails raises, which is [IndexError] for a
    Conjur reference without ["!var"] and else what its HTTP GET raises,
    and for Vault what the read raises or [TypeError] when the read finds
    nothing.  In each case the result is the exception and no mapping. *)
Theorem secret_resolution_all_or_nothing W service secrets :
  sd_secrets service = AttrVal secrets ->
  ((exists key ref e, (key, ref) ∈ secrets /\ decode_secret ref = Raise e) ->
   exists cause,
     get_base64_secrets service
     = Raise (AnsibleParserError (str "Could not decode secret") cause)
     /\ exists key ref, (key, ref) ∈ secrets /\ decode_secret ref = Raise cause)
  /\ (forall address account token_path verify,
        match load_token W token_path with
        | Raise e =>
            (get_conjur_secrets W service address account token_path verify).2
            = Raise e
        | Ok token =>
            (exists key ref, (key, ref) ∈ secrets
               /\ conjur_entry_raises W address account token
                    (verify_flag verify) ref) ->
            exists e,
              first_error
                (conjur_entry_error W address account token (verify_flag verify))
                secrets e
              /\ (get_conjur_secrets W service address account token_path
                    verify).2
                 = Raise e
        end)
  /\ (forall address token_path,
        match file_readline W token_path with
        | Raise e => get_vault_secrets W service address token_path = Raise e
        | Ok token =>
            (exists key ref, (key, ref) ∈ secrets
               /\ vault_entry_raises W address token ref) ->
            exists e,
              first_error (vault_entry_error W address token) secrets e
              /\ get_vault_secrets W service address token_path = Raise e
        end).
Proof.
  intros Hs. split_and!.
  - intros Hbad. unfold get_base64_secrets. rewrite Hs.
    by apply base64_loop_raises.
  - intros address account token_path verify. unfold get_conjur_secrets.
    destruct (load_token W token_path) as [token|e]; [|done].
    rewrite Hs. intros Hbad. by apply conjur_loop_first_error.
  - intros address token_path. unfold get_vault_secrets.
    destruct (file_readline W token_path) as [token|e];
      cbn [mbind result_bind]; [|done].
    rewrite Hs. intros Hbad. by apply vault_loop_first_error.
Qed.

Lemma secret_resolution_all_or_nothing_witness :
  (exists cause,
     get_base64_secrets
       (secret_service [(str "ok", str "cGFzcw"); (str "pw", str "Q")])
     = Raise (AnsibleParserError (str "Could not decode secret") cause)
     /\ decode_secret (str "Q") = Raise cause)
  /\ (get_conjur_secrets offline_world
        (secret_service [(str "pw", str "!var db/password")])
        (str "https://conjur") (str "acme") (str "/run/conjur/token") VNone).2
     = Raise (External (str "ConnectionError"))
  /\ get_vault_secrets not_found_world
       (secret_service [(str "pw", str "kv/password")])
       (str "http://vault:8200") (str "/run/vault/token")
     = Raise TypeError.
Proof.
  split; [|split].
  - destruct (secret_resolution_all_or_nothing offline_world
                (secret_service [(str "ok", str "cGFzcw"); (str "pw", str "Q")])
                [(str "ok", str "cGFzcw"); (str "pw", str "Q")]
                eq_refl) as (Hbase64 & _).
    destruct Hbase64 as (cause & Hcause & key & ref & Hin & Hraise).
    + exists (str "pw"), (str "Q"), BinasciiError.
      split; [apply list_elem_of_further, list_elem_of_here | reflexivity].
    + exists cause. split; [exact Hcause|].
      apply elem_of_cons in Hin as [Hin | Hin].
      * injection Hin as -> ->. discriminate Hraise.
      * apply list_elem_of_singleton in Hin. injection Hin as -> ->.
        exact Hraise.
  - destruct (secret_resolution_all_or_nothing offline_world
                (secret_service [(str "pw", str "!var db/password")])
                [(str "pw", str "!var db/password")]
                eq_refl) as (_ & Hconjur & _).
    specialize (Hconjur (str "https://conjur") (str "acme")
                  (str "/run/conjur/token") VNone).
    cbn [load_token offline_world] in Hconjur.
    destruct Hconjur as (e & Hfirst & Hraise).
    + exists (str "pw"), (str "!var db/password").
      split; [apply list_elem_of_here|].
      exists (External (str "ConnectionError")). reflexivity.
    + rewrite Hraise. f_equal.
      destruct Hfirst as (before & key & ref & after & Hsplit & _ & Herror).
      destruct before as [|kr before].
      * injection Hsplit as <- <- <-. vm_compute in Herror.
        by injection Herror.
      * injection Hsplit as _ Hrest. by destruct before.
  - destruct (secret_resolution_all_or_nothing not_found_world
                (secret_service [(str "pw", str "kv/password")])
                [(str "pw", str "kv/password")]
                eq_refl) as (_ & _ & Hvault).
    specialize (Hvault (str "http://vault:8200") (str "/run/vault/token")).
    cbn [file_readline not_found_world] in Hvault.
    destruct Hvault as (e & Hfirst & Hraise).
    + exists (str "pw"), (str "kv/password").
      split; [apply list_elem_of_here|]. left. reflexivity.
    + rewrite Hraise. f_equal.
      destruct Hfirst as (before & key & ref & after & Hsplit & _ & Herror).
      destruct before as [|kr before].
      * injection Hsplit as <- <- <-. vm_compute in Herror.
        by injection Herror.
      * injection Hsplit as _ Hrest. by destruct before.
Defined.

(** Claim C7 as stated fails for the Conjur resolver: a reference that the
    server answers with status 404 does not fail, the body of the reply is
    returned as the value of the secret. *)
Lemma conjur_error_reply_is_a_secret :
  (forall rq, requests_get not_found_world rq
              = Ok {| status_code := 404; text := str "not found" |})
  /\ (get_conjur_secrets not_found_world
        (secret_service [(str "pw", str "!var missing/secret")])
        (str "https://conjur") (str "acme") (str "/run/conjur/token") VNone).2
     = Ok [(str "pw", VStr (str "not found"))].
Proof. split; [intros rq|]; reflexivity. Qed.

(** *** C8: the verify flag of the Conjur resolver *)

(** Claim C8.  A string equal to ["true"] up to case becomes [True], a string
    equal to ["false"] up to case becomes [False], any other value, string
    or not, is left as it is; and the resolver passes the flag so normalised
    to the HTTP layer: every request it sends carries it, the request of the
    first reference is sent with it once the token loads and the reference
    has its marker, and a batch that resolves has sent one such request for
    each reference. *)
Theorem conjur_verify_normalised W service address account token_path verify :
  (forall s, verify = VStr s -> eq_nocase s (str "true") ->
             verify_flag verify = VBool true)
  /\ (forall s, verify = VStr s -> eq_nocase s (str "false") ->
                verify_flag verify = VBool false)
  /\ ((forall s, verify = VStr s ->
                 ~ eq_nocase s (str "true") /\ ~ eq_nocase s (str "false")) ->
      verify_flag verify = verify)
  /\ Forall (fun rq => req_verify rq = verify_flag verify)
       (get_conjur_secrets W service address account token_path verify).1
  /\ (forall token secrets,
        load_token W token_path = Ok token ->
        sd_secrets service = AttrVal secrets ->
        let run :=
          get_conjur_secrets W service address account token_path verify in
        let request :=
          conjur_request address account token (verify_flag verify) in
        (forall key ref rest piece,
           secrets = (key, ref) :: rest ->
           split (str "!var") ref !! 1 = Some piece ->
           exists sent, run.1 = request (strip piece) :: sent)
        /\ (forall resolved,
              run.2 = Ok resolved ->
              run.1 = map (fun kr => request (conjur_path kr.2)) secrets)).
Proof.
  assert (forall s, eq_nocase s (str "true") <-> lower s = str "true") as Htrue.
  { intros s. apply eq_nocase_lower. by repeat constructor. }
  assert (forall s, eq_nocase s (str "false") <-> lower s = str "false") as Hfalse.
  { intros s. apply eq_nocase_lower. by repeat constructor. }
  split_and!.
  - intros s -> Hs%Htrue. unfold verify_flag.
    rewrite decide_False by (rewrite Hs; discriminate).
    by rewrite decide_True.
  - intros s -> Hs%Hfalse. unfold verify_flag. by rewrite decide_True.
  - intros Hother. destruct verify as [| | |s|]; try done.
    destruct (Hother s eq_refl) as [Ht Hf]. unfold verify_flag.
    rewrite Htrue in Ht. rewrite Hfalse in Hf.
    by rewrite !decide_False.
  - unfold get_conjur_secrets.
    destruct (load_token W token_path) as [token|e]; [|apply Forall_nil_2].
    destruct (sd_secrets service); try apply Forall_nil_2.
    apply conjur_loop_verify.
  - intros token secrets Htok Hs. unfold get_conjur_secrets.
    rewrite Htok, Hs. cbv zeta. split.
    + intros key ref rest piece -> Hsplit. cbn [conjur_loop].
      rewrite Hsplit.
      destruct (requests_get W _) as [resp|e]; [|by eexists].
      destruct (conjur_loop W address account token (verify_flag verify) rest _)
        as [sent res].
      by eexists.
    + intros resolved Hres.
      destruct (conjur_loop_requests W address account token
                  (verify_flag verify) secrets []) as [_ Hok].
      by destruct (Hok _ Hres) as [-> _].
Qed.

Lemma conjur_verify_normalised_witness :
  eq_nocase (str "TrUe") (str "true")
  /\ verify_flag (VStr (str "TrUe")) = VBool true
  /\ eq_nocase (str "FALSE") (str "false")
  /\ verify_flag (VStr (str "FALSE")) = VBool false
  /\ verify_flag (VInt 0) = VInt 0
  /\ (get_conjur_secrets answering_world
        (secret_service [(str "pw", str "!var db/password")])
        (str "https://conjur") (str "acme") (str "/run/conjur/token")
        (VStr (str "FALSE"))).1
     = [conjur_request (str "https://conjur") (str "acme")
          (utf8_encode (str "{}")) (VBool false) (str "db/password")].
Proof.
  assert (eq_nocase (str "TrUe") (str "true")) as Htrue.
  { repeat constructor; (by left) || (right; left; reflexivity). }
  assert (eq_nocase (str "FALSE") (str "false")) as Hfalse.
  { repeat constructor; right; left; reflexivity. }
  split; [exact Htrue|]. split.
  { exact (proj1 (conjur_verify_normalised answering_world plain_service
                    [] [] [] (VStr (str "TrUe"))) _ eq_refl Htrue). }
  split; [exact Hfalse|]. split.
  { exact (proj1 (proj2 (conjur_verify_normalised answering_world
                           plain_service [] [] [] (VStr (str "FALSE"))))
             _ eq_refl Hfalse). }
  split.
  { apply (proj1 (proj2 (proj2 (conjur_verify_normalised answering_world
                                  plain_service [] [] [] (VInt 0))))).
    intros s Hs. discriminate Hs. }
  destruct (conjur_verify_normalised answering_world
              (secret_service [(str "pw", str "!var db/password")])
              (str "https://conjur") (str "acme") (str "/run/conjur/token")
              (VStr (str "FALSE"))) as (_ & Hflag & _ & _ & Hsent).
  destruct (Hsent (utf8_encode (str "{}")) [(str "pw", str "!var db/password")]
              eq_refl eq_refl) as [_ Hall].
  rewrite (Hall [(str "pw", VStr (str "s3cret"))] eq_refl).
  rewrite (Hflag (str "FALSE") eq_refl Hfalse). reflexivity.
Defined.

(** *** C9: a service without grouped provisioning *)

(** Claim C9, as amended.  For a service definition without a
    [stackl_inventory_groups] parameter whose [hosts] attribute exists, the
    pass leaves the groups alone, writes nothing to the store and makes
    these calls on the inventory, in this order: the group named after the
    service; its declared hosts, or the one host [service + "_" +
    str(index)] when the list is empty or [None]; the variable
    [infrastructure_target]; every provisioning parameter.  Then, when the
    definition has a [secrets] attribute, the secrets are resolved: every
    resolved secret is set as a variable of the group, and when resolving
    raises, the pass ends with that exception and no secret is set. *)
Theorem ungrouped_service_publication W opts name service index sd groups :
  dict_mem (str "stackl_inventory_groups") (provisioning_parameters sd) = false ->
  hasattr (sd_hosts sd) = true ->
  let published :=
    AddGroup service
    :: match sd_hosts sd with
       | AttrVal (h :: hs) => map (fun h => AddHost h service) (h :: hs)
       | _ => [AddHost (service ++ str "_" ++ str_of_nat index) service]
       end
    ++ SetVariable service (str "infrastructure_target")
         (VStr (infrastructure_target sd))
    :: set_variables service (provisioning_parameters sd) in
  parse_definition W opts name service index sd groups
  = match (if hasattr (sd_secrets sd) then resolve_secrets W opts sd
           else Ok []) with
    | Ok secrets =>
        {| p_groups := groups;
           p_events := published ++ set_variables service secrets;
           p_writes := [];
           p_outcome := Ok () |}
    | Raise e =>
        {| p_groups := groups;
           p_events := published;
           p_writes := [];
           p_outcome := Raise e |}
    end.
Proof.
  intros Hp Hh. unfold parse_definition. rewrite Hp, andb_false_r.
  unfold publish_service, secret_events.
  destruct (sd_hosts sd) as [| |hl]; [done|..];
    (destruct (hasattr (sd_secrets sd));
     [destruct (resolve_secrets W opts sd); cbn [fmap result_fmap]|]);
    cbv zeta; f_equal;
    rewrite <- ?app_comm_cons, <- ?app_assoc, ?app_nil_r; done.
Qed.

Lemma ungrouped_service_publication_witness :
  parse_definition answering_world (sample_options (str "base64"))
    (str "instance-1") (str "db") 0 plain_service []
  = {| p_groups := [];
       p_events :=
         [ AddGroup (str "db");
           AddHost (str "db_0") (str "db");
           SetVariable (str "db") (str "infrastructure_target") (VStr target1);
           SetVariable (str "db") (str "role") (VStr (str "db"));
           SetVariable (str "db") (str "pw") (VStr (str "pass")) ];
       p_writes := [];
       p_outcome := Ok () |}
  /\ parse_definition answering_world (sample_options (str "base64"))
       (str "instance-1") (str "db") 0 undecodable_service []
     = {| p_groups := [];
          p_events :=
            [ AddGroup (str "db");
              AddHost (str "db_0") (str "db");
              SetVariable (str "db") (str "infrastructure_target")
                (VStr target1);
              SetVariable (str "db") (str "role") (VStr (str "db")) ];
          p_writes := [];
          p_outcome :=
            Raise (AnsibleParserError (str "Could not decode secret")
                     BinasciiError) |}.
Proof.
  split.
  - exact (ungrouped_service_publication answering_world
             (sample_options (str "base64")) (str "instance-1") (str "db") 0
             plain_service [] eq_refl eq_refl).
  - exact (ungrouped_service_publication answering_world
             (sample_options (str "base64")) (str "instance-1") (str "db") 0
             undecodable_service [] eq_refl eq_refl).
Defined.

(** Claim C9 as stated fails on two definitions without grouped
    provisioning.  One has no [hosts] attribute: after [add_group] the
    branch reads [service_definition.hosts] and raises [AttributeError], so
    no host and no parameter reaches the inventory.  The other has a base64
    secret that does not decode: the pass ends with [AnsibleParserError]
    after the parameters, and no secret is set. *)
Lemma ungrouped_service_not_always_published :
  dict_mem (str "stackl_inventory_groups")
    (provisioning_parameters (hosted_service NoAttr)) = false
  /\ parse_definition answering_world (sample_options (str "base64"))
       (str "instance-1") (str "db") 0 (hosted_service NoAttr) []
     = {| p_groups := [];
          p_events := [AddGroup (str "db")];
          p_writes := [];
          p_outcome := Raise AttributeError |}
  /\ dict_mem (str "stackl_inventory_groups")
       (provisioning_parameters undecodable_service) = false
  /\ p_outcome
       (parse_definition answering_world (sample_options (str "base64"))
          (str "instance-1") (str "db") 0 undecodable_service [])
     = Raise (AnsibleParserError (str "Could not decode secret") BinasciiError)
  /\ forall key value,
       SetVariable (str "db") key value
       ∈ p_events
           (parse_definition answering_world (sample_options (str "base64"))
              (str "instance-1") (str "db") 0 undecodable_service [])
       -> key <> str "pw".
Proof.
  split_and!; try reflexivity.
  intros key value Hin. vm_compute in Hin.
  repeat (apply elem_of_cons in Hin as [Hin | Hin];
          [try discriminate Hin; injection Hin as -> ->; discriminate|]).
  by apply elem_of_nil in Hin.
Qed.

(** *** C10: a Conjur reference without the marker *)

(** Claim C10.  When some reference of a Conjur batch does not contain
    ["!var"], the resolver raises and returns no mapping; the exception is
    [IndexError] when the token file loads and no HTTP GET raises before the
    reference is reached. *)
Theorem conjur_reference_without_marker_raises W service address account token_path verify secrets :
  sd_secrets service = AttrVal secrets ->
  (exists key ref, (key, ref) ∈ secrets /\ ~ occurs_in (str "!var") ref) ->
  exists e,
    (get_conjur_secrets W service address account token_path verify).2 = Raise e
    /\ ((exists token, load_token W token_path = Ok token) ->
        (forall rq, exists r, requests_get W rq = Ok r) -> e = IndexError).
Proof.
  intros Hs Hbad. unfold get_conjur_secrets.
  destruct (load_token W token_path) as [token|e] eqn:Htok.
  - rewrite Hs.
    destruct (conjur_loop_no_marker W address account token (verify_flag verify)
                secrets [] Hbad) as (e & He & Hidx).
    exists e. split; [done|]. intros _. apply Hidx.
  - exists e. split; [done|]. by intros [token [=]].
Qed.

Lemma conjur_reference_without_marker_raises_witness :
  ~ occurs_in (str "!var") (str "secret/path")
  /\ (get_conjur_secrets answering_world
        (secret_service [(str "ok", str "!var a/b"); (str "pw", str "secret/path")])
        (str "https://conjur") (str "acme") (str "/run/conjur/token") VNone).2
     = Raise IndexError.
Proof.
  assert (~ occurs_in (str "!var") (str "secret/path")) as Habsent.
  { apply split_marker; [discriminate | reflexivity]. }
  split; [exact Habsent|].
  destruct (conjur_reference_without_marker_raises answering_world
              (secret_service
                 [(str "ok", str "!var a/b"); (str "pw", str "secret/path")])
              (str "https://conjur") (str "acme") (str "/run/conjur/token")
              VNone
              [(str "ok", str "!var a/b"); (str "pw", str "secret/path")]
              eq_refl) as (e & Hraise & Hindex).
  - exists (str "pw"), (str "secret/path").
    split; [apply list_elem_of_further, list_elem_of_here | exact Habsent].
  - rewrite Hraise. f_equal. apply Hindex.
    + eexists. reflexivity.
    + intros rq. eexists. reflexivity.
Defined.

(** ** Further properties of the code *)

(** *** More about [create_groups] *)

Lemma replicate_concat_elem {A} (x : A) (l : list A) n :
  x ∈ concat (replicate n l) -> x ∈ l.
Proof.
  induction n as [|n IH]; simpl; [by intros ?%elem_of_nil|].
  intros [?|?]%elem_of_app; auto.
Qed.

Lemma assigned_entries rules : forall pool tgt t,
  Forall (fun e => target e = tgt /\ host e ∈ pool) (assigned pool rules tgt t).
Proof.
  induction rules as [|r rules IH]; intros pool tgt t; [constructor|].
  rewrite assigned_cons. apply Forall_app. split.
  - apply Forall_forall. intros e He%replicate_concat_elem.
    unfold entries_of in He. apply list_elem_of_fmap in He as (h & -> & Hh).
    split; [done|]. simpl. by apply (subseteq_take (count r) pool).
  - eapply Forall_impl; [apply IH|]. intros e [He1 He2]. split; [done|].
    by apply (subseteq_drop (count r) pool).
Qed.

Lemma create_groups_shape pool rules tgt groups rest :
  create_groups pool rules tgt = Ok (groups, rest) ->
  rest = drop (sum_counts rules) pool
  /\ forall t,
       match dict_get t groups with
       | Some members =>
           t ∈ rule_tags rules
           /\ 0 < length members
           /\ length members = total_count rules t
           /\ Forall (fun e => target e = tgt /\ host e ∈ pool) members
       | None => total_count rules t = 0
       end.
Proof.
  intros Hrun. pose proof (create_groups_Ok_enough _ _ _ _ _ Hrun) as Hen.
  destruct (rule_loop_ok rules pool tgt [] Hen) as (g & Hg & Hne & Hget).
  unfold create_groups in Hrun. rewrite Hg in Hrun. injection Hrun as <- <-.
  split; [done|]. intros t.
  rewrite no_empty_group_get, Hget by (by apply Hne). simpl.
  pose proof (assigned_length rules pool tgt t Hen) as Hlen.
  pose proof (assigned_entries rules pool tgt t) as Hall.
  destruct (assigned pool rules tgt t) as [|e m] eqn:Has; [done|].
  split_and!; [|simpl; lia|done..].
  destruct (decide (t ∈ rule_tags rules)) as [|Hnot]; [done|].
  apply total_count_unlisted in Hnot. simpl in Hlen. lia.
Qed.

(** Property X1. When [create_groups] returns, the hosts it leaves are the
    pool without its first hosts, as many as the sum of the counts of the
    rules, and the groups it returns have as keys exactly the tags whose
    summed count over the rules listing them is positive: the group of a tag
    holds that many entries (never none), every entry carries the
    infrastructure target passed in and a host of the pool, and a tag that
    no rule lists, or whose summed count is 0, is no key. *)
Theorem create_groups_result_shape pool rules tgt groups rest :
  create_groups pool rules tgt = Ok (groups, rest) ->
  rest = drop (sum_counts rules) pool
  /\ forall t,
       match dict_get t groups with
       | Some members =>
           t ∈ rule_tags rules
           /\ 0 < length members
           /\ length members = total_count rules t
           /\ Forall (fun e => target e = tgt /\ host e ∈ pool) members
       | None => total_count rules t = 0
       end.
Proof. apply create_groups_shape. Qed.

Lemma create_groups_result_shape_witness :
  create_groups scenario_pool scenario_rules target1
  = Ok ([ (tag_web, [member host1 target1; member host2 target1]);
          (tag_db, [member host3 target1]) ],
        [host4])
  /\ [host4] = drop (sum_counts scenario_rules) scenario_pool
  /\ forall t,
       match dict_get t [ (tag_web, [member host1 target1; member host2 target1]);
                          (tag_db, [member host3 target1]) ] with
       | Some members =>
           t ∈ rule_tags scenario_rules
           /\ 0 < length members
           /\ length members = total_count scenario_rules t
           /\ Forall (fun e => target e = target1 /\ host e ∈ scenario_pool)
                members
       | None => total_count scenario_rules t = 0
       end.
Proof.
  assert (create_groups scenario_pool scenario_rules target1
          = Ok ([ (tag_web, [member host1 target1; member host2 target1]);
                  (tag_db, [member host3 target1]) ],
                [host4])) as Hrun by reflexivity.
  split; [exact Hrun|].
  exact (create_groups_result_shape scenario_pool scenario_rules target1 _ _
           Hrun).
Defined.

(** *** More about [check_groups] *)

Lemma total_count_Permutation rules rules' t :
  rules ≡ₚ rules' -> total_count rules t = total_count rules' t.
Proof.
  induction 1 as [|r l l' _ IH|r r' l|l1 l2 l3 _ IH1 _ IH2]; simpl; lia.
Qed.

Lemma rule_tags_Permutation rules rules' t :
  rules ≡ₚ rules' -> t ∈ rule_tags rules -> t ∈ rule_tags rules'.
Proof.
  unfold rule_tags. intros Hp Ht.
  apply list_elem_of_In, in_flat_map in Ht as (r & Hr & Ht).
  apply list_elem_of_In, in_flat_map. exists r. split; [|done].
  apply list_elem_of_In. rewrite <- Hp. by apply list_elem_of_In.
Qed.

Lemma bool_eq_iff (a b : bool) : (a = true <-> b = true) -> a = b.
Proof. destruct a, b; intros [H1 H2]; try done; [by rewrite H1 | by rewrite H2]. Qed.

(** Property X2. [check_groups] does not depend on the order of the rules:
    any permutation of the rule list gives the same answer for the same
    stored groups and host list. *)
Theorem check_groups_order_of_rules cur rules rules' hl :
  rules ≡ₚ rules' ->
  check_groups cur rules hl = check_groups cur rules' hl.
Proof.
  intros Hp. apply bool_eq_iff. rewrite !check_groups_true. split.
  - intros H t Ht. rewrite <- (total_count_Permutation _ _ t Hp).
    apply H. by apply (rule_tags_Permutation rules' rules).
  - intros H t Ht. rewrite (total_count_Permutation _ _ t Hp).
    apply H. by apply (rule_tags_Permutation rules rules').
Qed.

Lemma check_groups_order_of_rules_witness :
  scenario_rules ≡ₚ [rule [tag_db] 1; rule [tag_web] 2]
  /\ check_groups [(tag_web, [member host1 target1])] scenario_rules
       scenario_pool
     = check_groups [(tag_web, [member host1 target1])]
         [rule [tag_db] 1; rule [tag_web] 2] scenario_pool.
Proof.
  assert (scenario_rules ≡ₚ [rule [tag_db] 1; rule [tag_web] 2]) as Hperm
    by apply perm_swap.
  split; [exact Hperm|].
  exact (check_groups_order_of_rules [(tag_web, [member host1 target1])]
           scenario_rules [rule [tag_db] 1; rule [tag_web] 2] scenario_pool
           Hperm).
Defined.

(** Property X3. [check_groups] reads only sizes: the number of hosts in the
    host list and, for each tag the rules list, whether the stored groups
    have the tag and how many entries its group holds. Two calls that agree
    on these return the same answer, whatever hosts and targets the entries
    name and whatever other groups are stored. *)
Theorem check_groups_reads_sizes_only cur cur' rules hl hl' :
  length hl = length hl' ->
  (forall t, t ∈ rule_tags rules ->
             length <$> dict_get t cur = length <$> dict_get t cur') ->
  check_groups cur rules hl = check_groups cur' rules hl'.
Proof.
  intros Hlen Hsame. apply bool_eq_iff. rewrite !check_groups_true.
  split; intros H t Ht; destruct (H t Ht) as (m & Hm & Hsize);
    specialize (Hsame t Ht); rewrite Hm in Hsame; simpl in Hsame.
  - destruct (dict_get t cur') as [m'|]; [|done].
    exists m'. split; [done|]. injection Hsame as Hs. lia.
  - destruct (dict_get t cur) as [m'|]; [|done].
    exists m'. split; [done|]. injection Hsame as Hs. lia.
Qed.

Lemma check_groups_reads_sizes_only_witness :
  check_groups [(tag_web, [member host1 target1])] [rule [tag_web] 1] [host1]
  = check_groups [(tag_web, [member host2 target1]); (tag_db, [])]
      [rule [tag_web] 1] [host2].
Proof.
  apply (check_groups_reads_sizes_only
           [(tag_web, [member host1 target1])]
           [(tag_web, [member host2 target1]); (tag_db, [])]
           [rule [tag_web] 1] [host1] [host2]).
  - reflexivity.
  - intros t Ht. vm_compute in Ht. apply list_elem_of_singleton in Ht.
    subst t. reflexivity.
Defined.

(** *** More about the base64 resolver *)

Lemma base64_loop_appends items : forall acc resolved,
  NoDup (acc.*1 ++ items.*1) ->
  (base64_loop items acc = Ok resolved
   <-> exists tail, resolved = acc ++ tail /\ Forall2 resolves_to items tail).
Proof.
  induction items as [|[key secret] items IH]; intros acc resolved Hnd.
  - cbn [base64_loop]. split.
    + intros [= <-]. exists []. by rewrite app_nil_r.
    + intros (tail & -> & ->%Forall2_nil_inv_l). by rewrite app_nil_r.
  - cbn [base64_loop].
    assert (key ∉ acc.*1) as Hfresh.
    { apply NoDup_app in Hnd as (_ & Hdisj & _). intros Hin.
      apply (Hdisj key Hin). simpl. apply list_elem_of_here. }
    destruct (decode_secret secret) as [value|e] eqn:Hd.
    + rewrite dict_set_fresh by done.
      rewrite IH by (by rewrite fmap_app, <- app_assoc). split.
      * intros (tail & -> & Htail). exists ((key, VStr value) :: tail).
        rewrite <- app_assoc. split; [done|].
        constructor; [|done]. split; [done|]. by exists value.
      * intros (tail & -> & Htail).
        apply Forall2_cons_inv_l in Htail
          as ([k v] & tail' & [Hk (s & Hs & Hv)] & Htail' & ->).
        simpl in *. subst. exists tail'. rewrite <- app_assoc.
        split; [|done]. rewrite Hd in Hs. by injection Hs as ->.
    + split.
      * by destruct (is_Exception e).
      * intros (tail & -> & Htail).
        apply Forall2_cons_inv_l in Htail
          as ([k v] & tail' & [Hk (s & Hs & Hv)] & _). simpl in *. congruence.
Qed.

(** Property X4. For secrets with distinct keys, [get_base64_secrets]
    returns a mapping exactly when every reference decodes, and the mapping
    then has the same keys in the same order, each with the decoded text of
    its reference as a string. *)
Theorem get_base64_secrets_keeps_keys service secrets resolved :
  sd_secrets service = AttrVal secrets ->
  NoDup secrets.*1 ->
  (get_base64_secrets service = Ok resolved
   <-> Forall2 resolves_to secrets resolved).
Proof.
  intros Hs Hnd. unfold get_base64_secrets. rewrite Hs.
  rewrite base64_loop_appends by done. split.
  - by intros (tail & -> & Htail).
  - intros H. by exists resolved.
Qed.

Lemma get_base64_secrets_keeps_keys_witness :
  NoDup [(str "pw", str "cGFzcw")].*1
  /\ (get_base64_secrets plain_service = Ok [(str "pw", VStr (str "pass"))]
      <-> Forall2 resolves_to [(str "pw", str "cGFzcw")]
            [(str "pw", VStr (str "pass"))]).
Proof.
  assert (NoDup [(str "pw", str "cGFzcw")].*1) as Hkeys
    by apply NoDup_singleton.
  split; [exact Hkeys|].
  exact (get_base64_secrets_keeps_keys plain_service
           [(str "pw", str "cGFzcw")] [(str "pw", VStr (str "pass"))]
           eq_refl Hkeys).
Defined.

Lemma rstrip_by_last p s c :
  last (rstrip_by p s) = Some c -> p c = false.
Proof.
  induction s as [|x s IH]; [done|]. cbn [rstrip_by].
  destruct (rstrip_by p s) as [|y kept].
  - destruct (p x) eqn:Hx; [done|]. by intros [= <-].
  - rewrite last_cons_cons. apply IH.
Qed.

Lemma decode_secret_last secret s c :
  decode_secret secret = Ok s -> last s = Some c -> is_space c = false.
Proof.
  unfold decode_secret. destruct (b64decode _) as [data|]; [|done].
  cbn [mbind result_bind]. destruct (utf8_decode data) as [s0|]; [|done].
  intros [= <-]. apply rstrip_by_last.
Qed.

Lemma base64_loop_values items : forall acc resolved,
  base64_loop items acc = Ok resolved ->
  forall kv, kv ∈ resolved ->
    kv ∈ acc
    \/ exists ref s, (kv.1, ref) ∈ items /\ decode_secret ref = Ok s
                     /\ kv.2 = VStr s.
Proof.
  induction items as [|[key secret] items IH]; intros acc resolved;
    cbn [base64_loop].
  - intros [= <-] kv Hkv. by left.
  - destruct (decode_secret secret) as [value|e] eqn:Hd;
      [|by destruct (is_Exception e)].
    intros Hrun kv Hkv.
    destruct (IH _ _ Hrun kv Hkv) as [Hin|(ref & s & Hin & Hs & Hv)].
    + apply dict_set_elem in Hin as [->|Hin]; [|by left].
      right. exists secret, value. split; [apply list_elem_of_here | done].
    + right. exists ref, s. split; [by apply list_elem_of_further | done].
Qed.

(** Property X5. No value returned by [get_base64_secrets] ends with white
    space: every value is a string whose last character, if it has one, is
    not a white-space character. *)
Theorem get_base64_secrets_no_trailing_space service resolved :
  get_base64_secrets service = Ok resolved ->
  forall key v, (key, v) ∈ resolved ->
    exists s, v = VStr s /\ forall c, last s = Some c -> is_space c = false.
Proof.
  unfold get_base64_secrets. destruct (sd_secrets service) as [| |secrets]; try done.
  intros Hrun key v Hin.
  destruct (base64_loop_values _ _ _ Hrun _ Hin) as [Hnil|(ref & s & _ & Hs & Hv)].
  - by apply elem_of_nil in Hnil.
  - exists s. split; [done|]. intros c. by apply (decode_secret_last ref).
Qed.

Lemma get_base64_secrets_no_trailing_space_witness :
  get_base64_secrets (secret_service [(str "pw", str "YSA")])
  = Ok [(str "pw", VStr (str "a"))]
  /\ forall key v, (key, v) ∈ [(str "pw", VStr (str "a"))] ->
       exists s, v = VStr s /\ forall c, last s = Some c -> is_space c = false.
Proof.
  assert (get_base64_secrets (secret_service [(str "pw", str "YSA")])
          = Ok [(str "pw", VStr (str "a"))]) as Hrun by reflexivity.
  split; [exact Hrun|].
  exact (get_base64_secrets_no_trailing_space
           (secret_service [(str "pw", str "YSA")]) _ Hrun).
Defined.

(** *** Padding, foreign characters and lengths *)

Lemma b64encode_ascii data rest :
  forallb (fun c => c <? 128)%N (b64encode data ++ rest)
  = forallb (fun c => c <? 128)%N rest.
Proof.
  induction data as [|b1|b1 b2|b1 b2 b3 data IH] using three_step_ind;
    cbn [b64encode app forallb]; rewrite ?b2a_ascii; done.
Qed.

Lemma a2b_loop_two_pads lc :
  a2b_loop (PAD :: PAD :: str "===") 2 lc 0 = Ok [].
Proof. reflexivity. Qed.

Lemma a2b_loop_one_pad lc :
  a2b_loop (PAD :: str "===") 3 lc 0 = Ok [].
Proof. reflexivity. Qed.

Lemma b64_roundtrip_padded data : forall lc pads,
  Forall (fun b => b < 256)%N data ->
  a2b_loop (b64encode data ++ str "===") 0 lc pads = Ok data.
Proof.
  induction data as [|b1|b1 b2|b1 b2 b3 data IH] using three_step_ind;
    intros lc pads Hb; rewrite ?Forall_cons in Hb; cbv beta in Hb.
  - apply a2b_loop_tail; lia.
  - destruct Hb as [H1 _].
    cbn [b64encode app].
    do 2 (rewrite a2b_loop_b2a by div_lia).
    rewrite a2b_loop_two_pads. rewrite result_fmap_Ok. list_eq.
  - destruct Hb as (H1 & H2 & _).
    cbn [b64encode app].
    do 3 (rewrite a2b_loop_b2a by div_lia).
    rewrite a2b_loop_one_pad. rewrite !result_fmap_Ok. list_eq.
  - destruct Hb as (H1 & H2 & H3 & Hb).
    cbn [b64encode app].
    do 4 (rewrite a2b_loop_b2a by div_lia).
    rewrite (IH _ _ Hb). rewrite !result_fmap_Ok. list_eq.
Qed.

(** Property X6. The padding of a reference is optional: for a string of
    UTF-8-encodable code points that does not end with white space, the
    resolver decodes the padded base64 text of the string to the string, and
    decodes the same text without its padding to the same result. *)
Theorem get_base64_secrets_padding_optional s :
  Forall (fun c => is_scalar c = true) s ->
  (forall c, last s = Some c -> is_space c = false) ->
  decode_secret (b64encode (utf8_encode s)) = Ok s
  /\ decode_secret (b64encode (utf8_encode s))
     = decode_secret (unpadded (b64encode (utf8_encode s))).
Proof.
  intros Hs Hlast.
  assert (decode_secret (b64encode (utf8_encode s)) = Ok s) as Hpadded.
  { unfold decode_secret, b64decode. rewrite b64encode_ascii.
    change (forallb (fun c => c <? 128)%N (str "===")) with true. cbv iota.
    rewrite b64_roundtrip_padded by (by apply utf8_encode_octets).
    cbn [mbind result_bind]. rewrite utf8_roundtrip by done.
    rewrite result_fmap_Ok. unfold rstrip. by rewrite rstrip_by_id. }
  split; [done|]. rewrite Hpadded. symmetry.
  unfold decode_secret.
  rewrite b64decode_unpadded by (by apply utf8_encode_octets).
  cbn [mbind result_bind]. rewrite utf8_roundtrip by done.
  rewrite result_fmap_Ok. unfold rstrip. by rewrite rstrip_by_id.
Qed.

Lemma get_base64_secrets_padding_optional_witness :
  decode_secret (str "cGFzcw==") = Ok (str "pass")
  /\ decode_secret (str "cGFzcw==") = decode_secret (str "cGFzcw").
Proof.
  apply (get_base64_secrets_padding_optional (str "pass")).
  - repeat (apply Forall_cons; split; [reflexivity|]). apply Forall_nil_2.
  - intros c Hc. vm_compute in Hc. injection Hc as <-. reflexivity.
Defined.

Lemma a2b_loop_skip c l2 : forall l1 q lc pads,
  a2b c = None -> c <> PAD ->
  a2b_loop (l1 ++ c :: l2) q lc pads = a2b_loop (l1 ++ l2) q lc pads.
Proof.
  intros l1 q lc pads Hc Hpad. revert q lc pads.
  induction l1 as [|x l1 IH]; intros q lc pads; cbn [app a2b_loop].
  - apply N.eqb_neq in Hpad. by rewrite Hpad, Hc.
  - destruct (x =? PAD)%N; [by rewrite IH|].
    destruct (a2b x); [|apply IH].
    destruct q as [|[|[|q]]]; by rewrite IH.
Qed.

Lemma decode_secret_skip c l1 l2 :
  (c < 128)%N -> a2b c = None -> c <> PAD ->
  decode_secret (l1 ++ c :: l2) = decode_secret (l1 ++ l2).
Proof.
  intros Hascii Hc Hpad. unfold decode_secret, b64decode.
  rewrite <- !app_assoc, <- app_comm_cons.
  rewrite !forallb_app. cbn [forallb].
  apply N.ltb_lt in Hascii. rewrite Hascii. cbn [andb].
  rewrite <- !forallb_app. by rewrite a2b_loop_skip.
Qed.

Lemma base64_loop_ext items items' : forall acc,
  Forall2 (fun a b => a.1 = b.1 /\ decode_secret a.2 = decode_secret b.2)
    items items' ->
  base64_loop items acc = base64_loop items' acc.
Proof.
  intros acc H. revert acc.
  induction H as [|[k r] [k' r'] items items' [Hk Hr] _ IH]; intros acc; [done|].
  simpl in Hk, Hr. subst k'. cbn [base64_loop]. rewrite Hr.
  destruct (decode_secret r'); [apply IH | done].
Qed.

(** Property X7. An ASCII character that is neither of the base64 alphabet
    nor the padding character is ignored inside a reference: removing it
    from the reference leaves the outcome of [get_base64_secrets] on the
    whole batch unchanged. *)
Theorem get_base64_secrets_skips_foreign_characters
    service service' before after key c l1 l2 :
  (c < 128)%N -> a2b c = None -> c <> PAD ->
  sd_secrets service = AttrVal (before ++ (key, l1 ++ c :: l2) :: after) ->
  sd_secrets service' = AttrVal (before ++ (key, l1 ++ l2) :: after) ->
  get_base64_secrets service = get_base64_secrets service'.
Proof.
  intros Hascii Hc Hpad Hs Hs'. unfold get_base64_secrets. rewrite Hs, Hs'.
  apply base64_loop_ext. apply Forall2_app; [by apply Forall_Forall2_diag, Forall_true|].
  constructor; [|by apply Forall_Forall2_diag, Forall_true].
  split; [done|]. by apply decode_secret_skip.
Qed.

Lemma get_base64_secrets_skips_foreign_characters_witness :
  get_base64_secrets (secret_service [(str "pw", str "cGF" ++ 10%N :: str "zcw")])
  = get_base64_secrets (secret_service [(str "pw", str "cGFzcw")]).
Proof.
  apply (get_base64_secrets_skips_foreign_characters
           (secret_service [(str "pw", str "cGF" ++ 10%N :: str "zcw")])
           (secret_service [(str "pw", str "cGFzcw")])
           [] [] (str "pw") 10%N (str "cGF") (str "zcw")).
  - reflexivity.
  - reflexivity.
  - discriminate.
  - reflexivity.
  - reflexivity.
Defined.

Lemma a2b_Some_ascii c : is_Some (a2b c) -> (c <? 128)%N = true.
Proof.
  intros [v Hv]. unfold a2b in Hv. apply N.ltb_lt.
  n_cases; first [lia | discriminate].
Qed.

Lemma a2b_loop_length ref : forall q lc pads,
  q < 4 -> (q = 0 \/ pads = 0) ->
  Forall (fun c => is_Some (a2b c)) ref ->
  if decide ((q + length ref) mod 4 = 1)
  then a2b_loop (ref ++ str "===") q lc pads = Raise BinasciiError
  else exists data, a2b_loop (ref ++ str "===") q lc pads = Ok data.
Proof.
  induction ref as [|c ref IH]; intros q lc pads Hq Hp Href.
  - cbn [app length]. rewrite Nat.add_0_r, Nat.mod_small by done.
    destruct (decide (q = 1)) as [->|Hne]; [reflexivity|].
    exists []. by apply a2b_loop_tail.
  - apply Forall_cons in Href as [[v Hv] Href]. cbn [app length].
    rewrite (a2b_loop_data c v _ q lc pads Hv).
    destruct q as [|[|[|[|q]]]]; try lia.
    + specialize (IH 1 v 0 ltac:(lia) ltac:(by right) Href).
      replace ((0 + S (length ref)) mod 4) with ((1 + length ref) mod 4)
        by (f_equal; lia).
      done.
    + specialize (IH 2 (v mod 16)%N 0 ltac:(lia) ltac:(by right) Href).
      replace ((1 + S (length ref)) mod 4) with ((2 + length ref) mod 4)
        by (f_equal; lia).
      destruct (decide _); [by rewrite IH|].
      destruct IH as [data ->]. by eexists.
    + specialize (IH 3 (v mod 4)%N 0 ltac:(lia) ltac:(by right) Href).
      replace ((2 + S (length ref)) mod 4) with ((3 + length ref) mod 4)
        by (f_equal; lia).
      destruct (decide _); [by rewrite IH|].
      destruct IH as [data ->]. by eexists.
    + specialize (IH 0 0%N 0 ltac:(lia) ltac:(by right) Href).
      replace ((3 + S (length ref)) mod 4) with ((0 + length ref) mod 4)
        by (rewrite <- (Nat.Div0.mod_add (0 + length ref) 1 4); f_equal; lia).
      destruct (decide _); [by rewrite IH|].
      destruct IH as [data ->]. by eexists.
Qed.

(** Property X8. For a reference made of characters of the base64 alphabet
    only, the base64 decoding fails exactly when the length of the reference
    is 1 modulo 4: such a reference raises the binascii error, and every
    batch that contains it makes [get_base64_secrets] raise
    AnsibleParserError (Could not decode secret); with any other length the
    three padding characters added by the resolver are enough and the base64
    decoding returns bytes. *)
Theorem get_base64_secrets_rejects_dangling_character reference :
  Forall (fun c => is_Some (a2b c)) reference ->
  (length reference mod 4 = 1 ->
     decode_secret reference = Raise BinasciiError
     /\ forall service secrets key,
          sd_secrets service = AttrVal secrets ->
          (key, reference) ∈ secrets ->
          exists cause,
            get_base64_secrets service
            = Raise (AnsibleParserError (str "Could not decode secret") cause))
  /\ (length reference mod 4 <> 1 ->
      exists data, b64decode (reference ++ str "===") = Ok data).
Proof.
  intros Href.
  assert (forallb (fun c => c <? 128)%N (reference ++ str "===") = true) as Hascii.
  { rewrite forallb_app. apply andb_true_intro. split; [|reflexivity].
    apply forallb_forall. intros c Hc%list_elem_of_In.
    apply a2b_Some_ascii. by eapply Forall_forall in Href. }
  pose proof (a2b_loop_length reference 0 0%N 0 ltac:(lia) ltac:(by left) Href)
    as Hloop. cbn [Nat.add] in Hloop.
  split.
  - intros Hone. rewrite decide_True in Hloop by done.
    assert (decode_secret reference = Raise BinasciiError) as Hd.
    { unfold decode_secret, b64decode. by rewrite Hascii, Hloop. }
    split; [done|]. intros service secrets key Hs Hin.
    unfold get_base64_secrets. rewrite Hs.
    destruct (base64_loop_raises secrets []) as (cause & Hc & _);
      [by exists key, reference, BinasciiError|].
    by exists cause.
  - intros Hother. rewrite decide_False in Hloop by done.
    unfold b64decode. by rewrite Hascii.
Qed.

Lemma get_base64_secrets_rejects_dangling_character_witness :
  decode_secret (str "cGFzc") = Raise BinasciiError
  /\ (exists cause,
        get_base64_secrets (secret_service [(str "pw", str "cGFzc")])
        = Raise (AnsibleParserError (str "Could not decode secret") cause))
  /\ exists data, b64decode (str "cGFzcw" ++ str "===") = Ok data.
Proof.
  assert (Forall (fun c => is_Some (a2b c)) (str "cGFzc")) as Hshort.
  { repeat (apply Forall_cons; split; [by eexists|]). apply Forall_nil_2. }
  assert (Forall (fun c => is_Some (a2b c)) (str "cGFzcw")) as Hfull.
  { repeat (apply Forall_cons; split; [by eexists|]). apply Forall_nil_2. }
  destruct (get_base64_secrets_rejects_dangling_character (str "cGFzc") Hshort)
    as [Hdangling _].
  destruct (Hdangling eq_refl) as [Hraise Hbatch].
  split; [exact Hraise|]. split.
  - apply (Hbatch (secret_service [(str "pw", str "cGFzc")])
             [(str "pw", str "cGFzc")] (str "pw") eq_refl).
    apply list_elem_of_here.
  - destruct (get_base64_secrets_rejects_dangling_character (str "cGFzcw")
                Hfull) as [_ Hdecodes].
    apply Hdecodes. discriminate.
Defined.

(** *** The marker of a Conjur reference *)

Lemma split_go_skip sep x : forall s cur,
  split_go sep (x ++ s) (length x) cur = split_go sep s 0 cur.
Proof. induction x as [|c x IH]; intros s cur; [done | apply IH]. Qed.

Lemma marker_not_ahead a b :
  a <> [] -> ~ occurs_in (str "!var") a ->
  starts_with (str "!var") (a ++ str "!var" ++ b) = false.
Proof.
  intros Ha Hno. apply not_true_is_false. intros Hsw. apply Hno.
  destruct a as [|c [|x [|y [|z a]]]]; [done|..];
    cbn in Hsw; rewrite ?andb_true_iff, ?N.eqb_eq in Hsw;
    destruct_and?; try discriminate.
  subst. by exists [], a.
Qed.

Lemma split_go_first_marker b : forall a cur,
  ~ occurs_in (str "!var") a ->
  split_go (str "!var") (a ++ str "!var" ++ b) 0 cur
  = (cur ++ a) :: split_go (str "!var") b 0 [].
Proof.
  induction a as [|c a IH]; intros cur Hno.
  - rewrite app_nil_r. change ([] ++ str "!var" ++ b) with (33%N :: str "var" ++ b).
    cbn [split_go].
    change (33%N :: str "var" ++ b) with (str "!var" ++ b).
    rewrite starts_with_app.
    exact (f_equal (cons cur) (split_go_skip (str "!var") (str "var") b [])).
  - change ((c :: a) ++ str "!var" ++ b) with (c :: (a ++ str "!var" ++ b)).
    cbn [split_go].
    change (c :: (a ++ str "!var" ++ b)) with ((c :: a) ++ str "!var" ++ b).
    rewrite marker_not_ahead by done.
    rewrite IH, <- app_assoc; [done|].
    intros Hocc. by apply Hno, occurs_in_cons.
Qed.

Lemma split_single_marker a b :
  ~ occurs_in (str "!var") a -> ~ occurs_in (str "!var") b ->
  split (str "!var") (a ++ str "!var" ++ b) = [a; b].
Proof.
  intros Ha Hb. unfold split.
  by rewrite split_go_first_marker, split_go_absent.
Qed.

(** Property X9. For a batch of one reference with the marker !var once, a
    token that loads and a server that replies, [get_conjur_secrets] sends
    exactly one GET, for the text after the marker without the white space
    around it and with the normalised verify flag; the text before the
    marker is ignored, and the value of the secret is the text of the reply. *)
Theorem conjur_single_marker_request
    W service address account token_path verify key a b token r :
  sd_secrets service = AttrVal [(key, a ++ str "!var" ++ b)] ->
  ~ occurs_in (str "!var") a -> ~ occurs_in (str "!var") b ->
  load_token W token_path = Ok token ->
  requests_get W
    (conjur_request address account token (verify_flag verify) (strip b))
  = Ok r ->
  get_conjur_secrets W service address account token_path verify
  = ([conjur_request address account token (verify_flag verify) (strip b)],
     Ok [(key, VStr (text r))]).
Proof.
  intros Hs Ha Hb Htok Hget. unfold get_conjur_secrets.
  rewrite Htok, Hs. cbn [conjur_loop].
  rewrite split_single_marker by done. cbn [lookup list_lookup].
  by rewrite Hget.
Qed.

Lemma conjur_single_marker_request_witness :
  get_conjur_secrets answering_world
    (secret_service [(str "pw", str "conjur" ++ str "!var" ++ str " db/password ")])
    (str "https://conjur") (str "acme") (str "/run/conjur/token")
    (VStr (str "False"))
  = ([conjur_request (str "https://conjur") (str "acme")
        (utf8_encode (str "{}")) (VBool false) (str "db/password")],
     Ok [(str "pw", VStr (str "s3cret"))]).
Proof.
  apply (conjur_single_marker_request answering_world
           (secret_service
              [(str "pw", str "conjur" ++ str "!var" ++ str " db/password ")])
           (str "https://conjur") (str "acme") (str "/run/conjur/token")
           (VStr (str "False")) (str "pw") (str "conjur") (str " db/password ")
           (utf8_encode (str "{}"))
           {| status_code := 200; text := str "s3cret" |}).
  - reflexivity.
  - apply split_marker; [discriminate | reflexivity].
  - apply split_marker; [discriminate | reflexivity].
  - reflexivity.
  - reflexivity.
Defined.

(** *** One request for each reference *)

(** Property X10. [get_conjur_secrets] sends one request per reference, in
    the order of the references: the requests sent are always a prefix of
    the requests of the references, and all of them when a mapping is
    returned; for distinct keys the mapping has the same keys in the same
    order, each with the text of the reply to the request of its own
    reference. *)
Theorem get_conjur_secrets_one_request_per_reference
    W service address account token_path verify secrets token :
  sd_secrets service = AttrVal secrets ->
  load_token W token_path = Ok token ->
  let request := conjur_request address account token (verify_flag verify) in
  let run := get_conjur_secrets W service address account token_path verify in
  run.1 `prefix_of` map (fun kr => request (conjur_path kr.2)) secrets
  /\ forall resolved, run.2 = Ok resolved ->
       run.1 = map (fun kr => request (conjur_path kr.2)) secrets
       /\ (NoDup secrets.*1 -> Forall2 (replied_to W request) secrets resolved).
Proof.
  intros Hs Htok. unfold get_conjur_secrets. rewrite Htok, Hs. cbv zeta.
  destruct (conjur_loop_requests W address account token (verify_flag verify)
              secrets []) as [Hpre Hok].
  split; [done|]. intros resolved Hres.
  destruct (Hok _ Hres) as [Hall Htail]. split; [done|].
  intros Hnd. by destruct (Htail Hnd) as (tail & -> & ?).
Qed.

Lemma get_conjur_secrets_one_request_per_reference_witness :
  let request :=
    conjur_request (str "https://conjur") (str "acme") (utf8_encode (str "{}"))
      (VBool true) in
  let run :=
    get_conjur_secrets answering_world
      (secret_service [(str "pw", str "!var db/password"); (str "key", str "!var db/key")])
      (str "https://conjur") (str "acme") (str "/run/conjur/token")
      (VStr (str "True")) in
  run.1 = [request (str "db/password"); request (str "db/key")]
  /\ Forall2 (replied_to answering_world request)
       [(str "pw", str "!var db/password"); (str "key", str "!var db/key")]
       [(str "pw", VStr (str "s3cret")); (str "key", VStr (str "s3cret"))].
Proof.
  destruct (get_conjur_secrets_one_request_per_reference answering_world
              (secret_service
                 [(str "pw", str "!var db/password");
                  (str "key", str "!var db/key")])
              (str "https://conjur") (str "acme") (str "/run/conjur/token")
              (VStr (str "True"))
              [(str "pw", str "!var db/password"); (str "key", str "!var db/key")]
              (utf8_encode (str "{}")) eq_refl eq_refl) as [_ Hdone].
  destruct (Hdone [(str "pw", VStr (str "s3cret"));
                   (str "key", VStr (str "s3cret"))] eq_refl)
    as [Hrequests Hvalues].
  split; [exact Hrequests|].
  apply Hvalues. apply NoDup_cons. split; [|apply NoDup_singleton].
  intros Hin. apply list_elem_of_singleton in Hin. discriminate Hin.
Defined.

(** *** The Vault resolver: the last reference wins *)

Lemma vault_store_get data : forall acc key,
  NoDup data.*1 ->
  dict_get key (vault_store data acc)
  = match dict_get key data with Some v => Some v | None => dict_get key acc end.
Proof.
  induction data as [|[k0 v0] data IH]; intros acc key Hnd; [done|].
  apply NoDup_cons in Hnd as [Hfresh Hnd]. simpl in Hfresh.
  cbn [vault_store dict_get].
  rewrite IH by done. rewrite dict_get_set.
  destruct (decide (k0 = key)) as [->|Hne]; [|done].
  apply dict_get_None in Hfresh. by rewrite Hfresh.
Qed.

Lemma vault_loop_last_wins W address token items : forall datas acc,
  Forall2 (fun kr data =>
             hvac_read W address token kr.2 = Ok (Some data)
             /\ NoDup data.*1) items datas ->
  exists d, vault_loop W address token items acc = Ok d
    /\ forall key,
         dict_get key d
         = foldl (fun found data =>
                    match dict_get key data with
                    | Some v => Some v
                    | None => found
                    end) (dict_get key acc) datas.
Proof.
  induction items as [|[k ref] items IH]; intros datas acc Hall.
  - apply Forall2_nil_inv_l in Hall as ->. by exists acc.
  - apply Forall2_cons_inv_l in Hall as (data & datas' & [Hread Hnd] & Hall & ->).
    cbn [vault_loop]. simpl in Hread. rewrite Hread. cbn [mbind result_bind].
    destruct (IH datas' (vault_store data acc) Hall) as (d & -> & Hd).
    exists d. split; [done|]. intros key. rewrite Hd. cbn [foldl].
    by rewrite vault_store_get.
Qed.

(** Property X11. When the token file is read and every Vault read returns a
    mapping without repeated keys, [get_vault_secrets] returns one merged
    mapping in which every key has the value of the last reference whose
    data has that key. *)
Theorem get_vault_secrets_last_reference_wins
    W service address token_path secrets token datas :
  sd_secrets service = AttrVal secrets ->
  file_readline W token_path = Ok token ->
  Forall2 (fun kr data =>
             hvac_read W address token kr.2 = Ok (Some data)
             /\ NoDup data.*1) secrets datas ->
  exists resolved,
    get_vault_secrets W service address token_path = Ok resolved
    /\ forall key, dict_get key resolved = last_binding datas key.
Proof.
  intros Hs Htok Hall. unfold get_vault_secrets.
  rewrite Htok. cbn [mbind result_bind]. rewrite Hs.
  by apply vault_loop_last_wins.
Qed.

Lemma get_vault_secrets_last_reference_wins_witness :
  exists resolved,
    get_vault_secrets answering_world
      (secret_service [(str "a", str "kv/one"); (str "b", str "kv/two")])
      (str "http://vault:8200") (str "/run/vault/token")
    = Ok resolved
    /\ forall key,
         dict_get key resolved
         = last_binding [[(str "user", VStr (str "admin"))];
                         [(str "user", VStr (str "admin"))]] key.
Proof.
  apply (get_vault_secrets_last_reference_wins answering_world
           (secret_service [(str "a", str "kv/one"); (str "b", str "kv/two")])
           (str "http://vault:8200") (str "/run/vault/token")
           [(str "a", str "kv/one"); (str "b", str "kv/two")] (str "token")
           [[(str "user", VStr (str "admin"))];
            [(str "user", VStr (str "admin"))]]).
  - reflexivity.
  - reflexivity.
  - repeat (constructor; [split; [reflexivity | apply NoDup_singleton]|]).
    constructor.
Defined.

(** *** What a pass writes *)

Section PassFacts.
Context (W : World) (opts : Options) (name : pystr).

Lemma fresh_write_weaken (from from' : ServiceDefinition -> Prop) u :
  (forall sd, from sd -> from' sd) ->
  fresh_write from name u -> fresh_write from' name u.
Proof.
  intros Himp (Hd & Hn & sd & hl & rules & rest & Hfrom & H).
  split; [done|]. split; [done|]. exists sd, hl, rules, rest.
  split; [by apply Himp | done].
Qed.

Lemma parse_definition_writes service index sd groups :
  let p := parse_definition W opts name service index sd groups in
  Forall (fresh_write (eq sd) name) (p_writes p)
  /\ length (p_writes p) <= (if grouped sd then 1 else 0).
Proof.
  unfold parse_definition, grouped.
  destruct (hasattr (sd_hosts sd) && dict_mem _ _);
    [|by destruct (publish_service W opts service index sd)].
  unfold reconcile_groups.
  destruct (sd_hosts sd) as [| |hl] eqn:Hh; [by split; [constructor | simpl; lia]..|].
  destruct (rules_of _) as [rules|e] eqn:Hr; [|by split; [constructor | simpl; lia]].
  destruct (check_groups groups rules hl).
  { destruct (publish_groups W opts sd groups). by split; [constructor | simpl; lia]. }
  destruct (create_groups hl rules (infrastructure_target sd))
    as [[fresh rest]|e] eqn:Hc; [|by split; [constructor | simpl; lia]].
  assert (fresh_write (eq sd) name
            {| stack_instance_name := name; stackl_groups := fresh;
               disable_invocation := true |}) as Hw.
  { split; [done|]. split; [done|]. by exists sd, hl, rules, rest. }
  destruct (put_stack_instance W _) as [?|e];
    [destruct (publish_groups W opts sd fresh)|]; simpl;
    (split; [by constructor | lia]).
Qed.

Lemma and_then_writes (P : StackInstanceUpdate -> Prop) p step n m :
  Forall P (p_writes p) -> length (p_writes p) <= n ->
  (forall g, Forall P (p_writes (step g)) /\ length (p_writes (step g)) <= m) ->
  Forall P (p_writes (and_then p step))
  /\ length (p_writes (and_then p step)) <= n + m.
Proof.
  intros HP Hn Hstep. unfold and_then.
  destruct (p_outcome p); [|split; [done | lia]]. simpl.
  destruct (Hstep (p_groups p)) as [HQ Hm].
  split; [by apply Forall_app | rewrite length_app; lia].
Qed.

Lemma parse_definitions_writes service defs : forall index groups,
  let p := parse_definitions W opts name service index defs groups in
  Forall (fresh_write (fun sd => sd ∈ defs) name) (p_writes p)
  /\ length (p_writes p) <= length (filter (fun sd => grouped sd = true) defs).
Proof.
  induction defs as [|sd defs IH]; intros index groups; [by split|].
  cbn [parse_definitions].
  destruct (parse_definition_writes service index sd groups) as [Hw Hl].
  rewrite filter_cons.
  replace (length (if decide (grouped sd = true)
                   then sd :: filter (fun sd => grouped sd = true) defs
                   else filter (fun sd => grouped sd = true) defs))
    with ((if grouped sd then 1 else 0)
          + length (filter (fun sd => grouped sd = true) defs))
    by (destruct (grouped sd); by rewrite ?decide_True, ?decide_False by done).
  apply and_then_writes; [|done|].
  - eapply Forall_impl; [exact Hw|]. intros u. apply fresh_write_weaken.
    intros ? <-. apply list_elem_of_here.
  - intros g. destruct (IH (S index) g) as [Hw' Hl']. split; [|done].
    eapply Forall_impl; [exact Hw'|]. intros u. apply fresh_write_weaken.
    intros sd' Hin. by apply list_elem_of_further.
Qed.

Lemma parse_services_writes services : forall groups,
  let p := parse_services W opts name services groups in
  Forall (fresh_write (fun sd => sd ∈ flat_map snd services) name) (p_writes p)
  /\ length (p_writes p)
     <= length (filter (fun sd => grouped sd = true) (flat_map snd services)).
Proof.
  induction services as [|[service defs] services IH]; intros groups; [by split|].
  cbn [parse_services flat_map snd].
  destruct (parse_definitions_writes service defs 0 groups) as [Hw Hl].
  rewrite filter_app, length_app.
  apply and_then_writes; [|done|].
  - eapply Forall_impl; [exact Hw|]. intros u. apply fresh_write_weaken.
    intros sd Hin. apply elem_of_app. by left.
  - intros g. destruct (IH g) as [Hw' Hl']. split; [|done].
    eapply Forall_impl; [exact Hw'|]. intros u. apply fresh_write_weaken.
    intros sd Hin. apply elem_of_app. by right.
Qed.

End PassFacts.

(** Property X12. Every update a pass writes names the stack instance, has
    disable_invocation set and carries exactly the groups [create_groups]
    computes from the hosts, the rules and the infrastructure target of one
    service definition of the instance; a pass writes at most one update per
    grouped service definition. *)
Theorem parse_writes_fresh_groups_quietly W opts inst :
  Forall (fresh_write (fun sd => sd ∈ all_definitions inst) (si_name inst))
    (p_writes (parse W opts inst))
  /\ length (p_writes (parse W opts inst))
     <= length (filter (fun sd => grouped sd = true) (all_definitions inst)).
Proof.
  unfold parse, all_definitions.
  pose proof (parse_services_writes W opts (si_name inst) (si_services inst)
                (si_groups inst)) as H.
  destruct (p_outcome _) as [|e]; [done|]. by destruct (is_Exception e).
Qed.

(** *** The trace of a pass *)

Lemma well_scoped_mono events : forall known known',
  (forall g, g ∈ known -> g ∈ known') ->
  well_scoped known events -> well_scoped known' events.
Proof.
  induction events as [|[g|h g|g k v] events IH]; intros known known' Hsub;
    cbn [well_scoped]; [done|..].
  - apply IH. intros g' [->|Hin]%elem_of_cons;
      [apply list_elem_of_here | by apply list_elem_of_further, Hsub].
  - intros [Hg Hrest]. split; [by apply Hsub | by apply (IH known)].
  - intros [Hg Hrest]. split; [by apply Hsub | by apply (IH known)].
Qed.

Lemma well_scoped_app events events' : forall known,
  well_scoped known events -> well_scoped known events' ->
  well_scoped known (events ++ events').
Proof.
  induction events as [|[g|h g|g k v] events IH]; intros known;
    cbn [well_scoped app]; [done|..].
  - intros H H'. apply IH; [done|].
    apply (well_scoped_mono _ known); [|done].
    intros g' Hin. by apply list_elem_of_further.
  - intros [Hg H] H'. split; [done | by apply IH].
  - intros [Hg H] H'. split; [done | by apply IH].
Qed.

Lemma set_variables_scoped known group d :
  group ∈ known -> well_scoped known (set_variables group d).
Proof. intros Hg. induction d as [|[k v] d IH]; [done|]. by split. Qed.

Section TraceFacts.
Context (W : World) (opts : Options).

Lemma secret_events_scoped known sd group sevs :
  group ∈ known -> secret_events W opts sd group = Ok sevs ->
  well_scoped known sevs.
Proof.
  intros Hg. unfold secret_events.
  destruct (hasattr (sd_secrets sd)); [|by intros [= <-]].
  destruct (resolve_secrets W opts sd) as [secrets|]; [|done].
  intros [= <-]. by apply set_variables_scoped.
Qed.

Lemma publish_members_scoped known sd item value :
  item ∈ known -> well_scoped known (publish_members W opts sd item value).1.
Proof.
  intros Hg. induction value as [|group value IH]; [done|].
  cbn [publish_members].
  destruct (secret_events W opts sd item) as [sevs|e] eqn:Hs.
  - destruct (publish_members W opts sd item value) as [evs' r].
    cbn [fst] in *. split; [done|].
    apply well_scoped_app; [by apply set_variables_scoped|].
    apply well_scoped_app; [by eapply secret_events_scoped | done].
  - cbn [fst]. split; [done | by apply set_variables_scoped].
Qed.

Lemma publish_groups_scoped sd groups : forall known,
  well_scoped known (publish_groups W opts sd groups).1.
Proof.
  induction groups as [|[item value] groups IH]; intros known; [done|].
  cbn [publish_groups].
  pose proof (publish_members_scoped (item :: known) sd item value
                (list_elem_of_here _ _)) as Hm.
  destruct (publish_members W opts sd item value) as [evs [?|e]];
    cbn [fst] in *; [|done].
  specialize (IH (item :: known)).
  destruct (publish_groups W opts sd groups) as [evs' r]. cbn [fst] in *.
  cbn [well_scoped]. by apply well_scoped_app.
Qed.

Lemma service_events_scoped known service host_events key value d tail :
  well_scoped (service :: known) host_events ->
  well_scoped (service :: known) tail ->
  well_scoped known
    ((AddGroup service
      :: host_events ++ SetVariable service key value :: set_variables service d)
     ++ tail).
Proof.
  intros Hh Ht. rewrite <- app_comm_cons. cbn [well_scoped].
  assert (service ∈ service :: known) as Hg by apply list_elem_of_here.
  apply well_scoped_app; [|done].
  apply well_scoped_app; [done|]. split; [done|].
  by apply set_variables_scoped.
Qed.

Lemma publish_service_scoped known service index sd :
  well_scoped known (publish_service W opts service index sd).1.
Proof.
  unfold publish_service.
  assert (service ∈ service :: known) as Hg by apply list_elem_of_here.
  assert (forall hs, well_scoped (service :: known)
                       (map (fun h => AddHost h service) hs)) as Hhosts.
  { induction hs as [|h hs IH]; [done | by split]. }
  assert (well_scoped (service :: known)
            match sd_hosts sd with
            | AttrVal (h :: hs) => map (fun h => AddHost h service) (h :: hs)
            | _ => [AddHost (service ++ str "_" ++ str_of_nat index) service]
            end) as Hh.
  { destruct (sd_hosts sd) as [| |[|h hs]]; first [by split | apply Hhosts]. }
  destruct (sd_hosts sd) as [| |hl] eqn:Hattr; [done|..];
    (destruct (secret_events W opts sd service) as [sevs|e] eqn:Hs; cbn [fst];
     [ apply service_events_scoped; [done | by eapply secret_events_scoped]
     | rewrite <- (app_nil_r (_ :: _)); by apply service_events_scoped ]).
Qed.

Lemma parse_definition_scoped known name service index sd groups :
  well_scoped known
    (p_events (parse_definition W opts name service index sd groups)).
Proof.
  unfold parse_definition.
  destruct (hasattr (sd_hosts sd) && dict_mem _ _).
  - destruct (reconcile_groups W name sd groups) as [[groups' writes] [?|e]];
      [|done].
    pose proof (publish_groups_scoped sd groups' known) as H.
    by destruct (publish_groups W opts sd groups').
  - pose proof (publish_service_scoped known service index sd) as H.
    by destruct (publish_service W opts service index sd).
Qed.

Lemma and_then_scoped known p step :
  well_scoped known (p_events p) ->
  (forall g, well_scoped known (p_events (step g))) ->
  well_scoped known (p_events (and_then p step)).
Proof.
  intros Hp Hstep. unfold and_then. destruct (p_outcome p); [|done].
  simpl. by apply well_scoped_app.
Qed.

Lemma parse_definitions_scoped known name service defs : forall index groups,
  well_scoped known
    (p_events (parse_definitions W opts name service index defs groups)).
Proof.
  induction defs as [|sd defs IH]; intros index groups; [done|].
  cbn [parse_definitions].
  apply and_then_scoped; [apply parse_definition_scoped | intros g; apply IH].
Qed.

Lemma parse_services_scoped known name services : forall groups,
  well_scoped known (p_events (parse_services W opts name services groups)).
Proof.
  induction services as [|[service defs] services IH]; intros groups; [done|].
  cbn [parse_services].
  apply and_then_scoped; [apply parse_definitions_scoped | intros g; apply IH].
Qed.

End TraceFacts.

(** Property X13. In the calls a pass makes on the inventory, every add_host
    and every set_variable names a group that an add_group earlier in the
    same pass added, also when the pass ends with an exception. *)
Theorem parse_trace_well_scoped W opts inst :
  well_scoped [] (p_events (parse W opts inst)).
Proof.
  unfold parse.
  pose proof (parse_services_scoped W opts [] (si_name inst) (si_services inst)
                (si_groups inst)) as H.
  destruct (p_outcome _) as [|e]; [done|]. by destruct (is_Exception e).
Qed.

(** *** A handler the plugin does not know *)

Section UnknownHandler.
Context (W : World) (opts : Options) (Hunknown : unknown_handler opts).

Lemma resolve_secrets_unknown sd :
  resolve_secrets W opts sd = Raise UnboundLocalError.
Proof.
  destruct Hunknown as (Hv & Hb & Hc). unfold resolve_secrets.
  by rewrite !decide_False.
Qed.

Lemma parse_definition_unknown name service index sd groups :
  grouped sd = false -> hasattr (sd_secrets sd) = true ->
  exists e,
    p_outcome (parse_definition W opts name service index sd groups) = Raise e.
Proof.
  intros Hg Hs. unfold parse_definition. unfold grouped in Hg. rewrite Hg.
  unfold publish_service, secret_events.
  rewrite Hs, resolve_secrets_unknown.
  destruct (sd_hosts sd) as [| |hl]; by eexists.
Qed.

Lemma and_then_raises_l p step e :
  p_outcome p = Raise e -> p_outcome (and_then p step) = Raise e.
Proof. intros H. unfold and_then. by rewrite H. Qed.

Lemma and_then_raises_r p step :
  (forall g, exists e, p_outcome (step g) = Raise e) ->
  exists e, p_outcome (and_then p step) = Raise e.
Proof.
  intros H. unfold and_then. destruct (p_outcome p) as [?|e] eqn:Hp.
  - destruct (H (p_groups p)) as [e He]. exists e. done.
  - exists e. done.
Qed.

Lemma parse_definitions_unknown name service defs sd : forall index groups,
  sd ∈ defs -> grouped sd = false -> hasattr (sd_secrets sd) = true ->
  exists e,
    p_outcome (parse_definitions W opts name service index defs groups)
    = Raise e.
Proof.
  induction defs as [|sd' defs IH]; intros index groups Hin Hg Hs.
  - by apply elem_of_nil in Hin.
  - cbn [parse_definitions]. apply elem_of_cons in Hin as [->|Hin].
    + destruct (parse_definition_unknown name service index sd' groups Hg Hs)
        as [e He].
      exists e. by apply and_then_raises_l.
    + apply and_then_raises_r. intros g. by apply IH.
Qed.

Lemma parse_services_unknown name services sd : forall groups,
  sd ∈ flat_map snd services ->
  grouped sd = false -> hasattr (sd_secrets sd) = true ->
  exists e, p_outcome (parse_services W opts name services groups) = Raise e.
Proof.
  induction services as [|[service defs] services IH]; intros groups Hin Hg Hs.
  - by apply elem_of_nil in Hin.
  - cbn [parse_services]. cbn [flat_map snd] in Hin.
    apply elem_of_app in Hin as [Hin|Hin].
    + destruct (parse_definitions_unknown name service defs sd 0 groups Hin Hg Hs)
        as [e He].
      exists e. by apply and_then_raises_l.
    + apply and_then_raises_r. intros g. by apply IH.
Qed.

End UnknownHandler.

Lemma parse_definition_unbound W opts name service index sd groups :
  unknown_handler opts ->
  grouped sd = false -> hasattr (sd_secrets sd) = true ->
  let p := parse_definition W opts name service index sd groups in
  p_groups p = groups
  /\ p_writes p = []
  /\ p_outcome p
     = Raise (if hasattr (sd_hosts sd) then UnboundLocalError
              else AttributeError).
Proof.
  intros Hu Hg Hs. unfold parse_definition. unfold grouped in Hg. rewrite Hg.
  unfold publish_service, secret_events.
  rewrite Hs, (resolve_secrets_unknown W opts Hu).
  by destruct (sd_hosts sd) as [| |hl].
Qed.

(** Property X14. With a secret_handler option that is none of vault, base64
    and conjur, a service definition outside the grouped branch that has a
    secrets attribute always raises: UnboundLocalError when it has a hosts
    attribute (the variable secrets is read unbound), AttributeError when it
    has none; it changes no group and writes nothing. A pass over an
    instance that holds such a definition never ends normally: it ends with
    an exception, which need not be this one; a pass over an instance made
    of that one definition ends with AnsibleError wrapping this
    exception. *)
Theorem parse_unknown_handler_fails W opts sd :
  unknown_handler opts ->
  grouped sd = false -> hasattr (sd_secrets sd) = true ->
  (forall name service index groups,
     let p := parse_definition W opts name service index sd groups in
     p_groups p = groups
     /\ p_writes p = []
     /\ p_outcome p
        = Raise (if hasattr (sd_hosts sd) then UnboundLocalError
                 else AttributeError))
  /\ (forall inst,
        sd ∈ all_definitions inst ->
        exists e, p_outcome (parse W opts inst) = Raise e)
  /\ (forall inst service,
        si_services inst = [(service, [sd])] ->
        p_outcome (parse W opts inst)
        = Raise (AnsibleError (if hasattr (sd_hosts sd) then UnboundLocalError
                               else AttributeError))).
Proof.
  intros Hu Hg Hs. split_and!.
  - intros name service index groups. by apply parse_definition_unbound.
  - intros inst Hin. unfold parse.
    destruct (parse_services_unknown W opts Hu (si_name inst) (si_services inst)
                sd (si_groups inst) Hin Hg Hs) as [e He].
    rewrite He. destruct (is_Exception e); by eexists.
  - intros inst service Hinst. unfold parse. rewrite Hinst.
    cbn [parse_services parse_definitions].
    destruct (parse_definition_unbound W opts (si_name inst) service 0 sd
                (si_groups inst) Hu Hg Hs) as (_ & _ & Hout).
    unfold and_then at 2. cbn [p_outcome].
    unfold and_then at 2. rewrite Hout.
    unfold and_then. rewrite Hout. rewrite Hout.
    by destruct (hasattr (sd_hosts sd)).
Qed.

Lemma parse_unknown_handler_fails_witness :
  unknown_handler (sample_options (str "none"))
  /\ p_outcome
       (parse_definition answering_world (sample_options (str "none"))
          (str "instance-1") (str "db") 0 plain_service [])
     = Raise UnboundLocalError
  /\ p_outcome (parse answering_world (sample_options (str "none"))
                  plain_instance)
     = Raise (AnsibleError UnboundLocalError).
Proof.
  assert (unknown_handler (sample_options (str "none"))) as Hunknown
    by (repeat split; discriminate).
  split; [exact Hunknown|].
  destruct (parse_unknown_handler_fails answering_world
              (sample_options (str "none")) plain_service Hunknown
              eq_refl eq_refl) as (Hdefinition & _ & Hpass).
  split.
  - apply (Hdefinition (str "instance-1") (str "db") 0 []).
  - exact (Hpass plain_instance (str "db") eq_refl).
Defined.

(** *** A recomputed assignment replaces the stored one *)

(** Property X15. When [check_groups] rejects the stored groups of a grouped
    service definition and [create_groups] and the write succeed, the pass
    replaces the stored groups as a whole by the computed ones: it writes
    one update that carries them, publishes the computed groups only, and
    stored groups of tags the rules do not list are gone. *)
Theorem parse_definition_replaces_groups
    W opts name service index sd groups host_list rules fresh rest :
  sd_hosts sd = AttrVal host_list ->
  dict_get (str "stackl_inventory_groups") (provisioning_parameters sd)
  = Some (VRules rules) ->
  check_groups groups rules host_list = false ->
  create_groups host_list rules (infrastructure_target sd) = Ok (fresh, rest) ->
  put_stack_instance W
    {| stack_instance_name := name; stackl_groups := fresh;
       disable_invocation := true |} = Ok () ->
  let p := parse_definition W opts name service index sd groups in
  p_groups p = fresh
  /\ p_writes p
     = [ {| stack_instance_name := name; stackl_groups := fresh;
            disable_invocation := true |} ]
  /\ (p_events p, p_outcome p) = publish_groups W opts sd fresh
  /\ forall t, t ∉ rule_tags rules -> dict_get t (p_groups p) = None.
Proof.
  intros Hh Hp Hchk Hrun Hput. unfold parse_definition, reconcile_groups, dict_mem.
  rewrite Hh, Hp. simpl. rewrite Hchk, Hrun, Hput.
  destruct (publish_groups W opts sd fresh) as [evs r]. simpl.
  split_and!; [done..|]. intros t Ht.
  destruct (create_groups_shape _ _ _ _ _ Hrun) as [_ Hshape].
  specialize (Hshape t). destruct (dict_get t fresh); [|done].
  by destruct Hshape as [Hin _].
Qed.

Lemma parse_definition_replaces_groups_witness :
  let fresh := [ (tag_web, [member host1 target1; member host2 target1]);
                 (tag_db, [member host3 target1]) ] in
  let written := {| stack_instance_name := str "instance-1";
                    stackl_groups := fresh; disable_invocation := true |} in
  let p := parse_definition answering_world (sample_options (str "base64"))
             (str "instance-1") (str "app") 0
             (grouped_service scenario_pool scenario_rules)
             [(str "old", [member host4 target1])] in
  p_groups p = fresh
  /\ p_writes p = [written]
  /\ (p_events p, p_outcome p)
     = publish_groups answering_world (sample_options (str "base64"))
         (grouped_service scenario_pool scenario_rules) fresh
  /\ forall t, t ∉ rule_tags scenario_rules -> dict_get t (p_groups p) = None.
Proof.
  apply (parse_definition_replaces_groups answering_world
           (sample_options (str "base64")) (str "instance-1") (str "app") 0
           (grouped_service scenario_pool scenario_rules)
           [(str "old", [member host4 target1])] scenario_pool scenario_rules
           [ (tag_web, [member host1 target1; member host2 target1]);
             (tag_db, [member host3 target1]) ] [host4]).
  - reflexivity.
  - reflexivity.
  - reflexivity.
  - reflexivity.
  - reflexivity.
Defined.

(** *** The published groups *)

Section PublishGroups.
Context (W : World) (opts : Options) (sd : ServiceDefinition).

Lemma publish_members_events secrets item : forall value,
  (forall group, secret_events W opts sd group
                 = Ok (set_variables group secrets)) ->
  publish_members W opts sd item value
  = (flat_map (member_events sd secrets item) value, Ok ()).
Proof.
  intros value Hsecrets. induction value as [|e value IH]; [done|].
  cbn [publish_members flat_map]. rewrite Hsecrets, IH.
  unfold member_events. cbn [app]. by rewrite <- app_assoc.
Qed.

Lemma publish_groups_events secrets : forall groups,
  (forall group, secret_events W opts sd group
                 = Ok (set_variables group secrets)) ->
  publish_groups W opts sd groups
  = (flat_map (group_events sd secrets) groups, Ok ()).
Proof.
  intros groups Hsecrets. induction groups as [|[item value] groups IH]; [done|].
  cbn [publish_groups flat_map].
  rewrite (publish_members_events secrets) by done. by rewrite IH.
Qed.

Lemma publish_groups_no_member : forall groups,
  Forall (fun g => g.2 = []) groups ->
  publish_groups W opts sd groups = (map (fun g => AddGroup g.1) groups, Ok ()).
Proof.
  induction groups as [|[item value] groups IH]; [done|].
  intros [Hvalue Hrest]%Forall_cons. simpl in Hvalue. subst value.
  cbn [publish_groups publish_members map]. by rewrite IH.
Qed.

Lemma publish_members_raises e item value :
  (forall group, secret_events W opts sd group = Raise e) ->
  value <> [] ->
  (publish_members W opts sd item value).2 = Raise e.
Proof.
  intros Hsecrets Hvalue. destruct value as [|m value]; [done|].
  cbn [publish_members]. by rewrite Hsecrets.
Qed.

Lemma publish_groups_raises e : forall groups,
  (forall group, secret_events W opts sd group = Raise e) ->
  Exists (fun g => g.2 <> []) groups ->
  (publish_groups W opts sd groups).2 = Raise e.
Proof.
  intros groups Hsecrets. induction groups as [|[item value] groups IH].
  - by intros ?%Exists_nil.
  - intros Hex. cbn [publish_groups].
    destruct value as [|m value].
    + apply Exists_cons in Hex as [Hex | Hex]; [done|].
      cbn [publish_members]. specialize (IH Hex).
      destruct (publish_groups W opts sd groups) as [evs r]. by simpl in *.
    + pose proof (publish_members_raises e item (m :: value) Hsecrets) as Hm.
      destruct (publish_members W opts sd item (m :: value)) as [evs r].
      simpl in Hm. by rewrite Hm.
Qed.

End PublishGroups.

(** Property X16. In the grouped branch, when the secrets resolve or the
    definition has no secrets attribute, the calls on the inventory are, for
    each stored group in order, add_group and then, for each entry of the
    group in order, add_host of its host followed by every provisioning
    parameter and every secret as a variable of the group: parameters and
    secrets are set once per entry, and the branch succeeds. *)
Theorem publish_groups_once_per_member W opts sd groups secrets :
  (if hasattr (sd_secrets sd) then resolve_secrets W opts sd = Ok secrets
   else secrets = []) ->
  publish_groups W opts sd groups
  = (flat_map (group_events sd secrets) groups, Ok ()).
Proof.
  intros Hsecrets. apply publish_groups_events. intros group.
  unfold secret_events. destruct (hasattr (sd_secrets sd)).
  - by rewrite Hsecrets.
  - by subst secrets.
Qed.

Lemma publish_groups_once_per_member_witness :
  publish_groups answering_world (sample_options (str "base64")) plain_service
    [(tag_web, [member host1 target1; member host2 target1]); (tag_db, [])]
  = ([ AddGroup tag_web;
       AddHost host1 tag_web;
       SetVariable tag_web (str "role") (VStr (str "db"));
       SetVariable tag_web (str "pw") (VStr (str "pass"));
       AddHost host2 tag_web;
       SetVariable tag_web (str "role") (VStr (str "db"));
       SetVariable tag_web (str "pw") (VStr (str "pass"));
       AddGroup tag_db ],
     Ok ()).
Proof.
  exact (publish_groups_once_per_member answering_world
           (sample_options (str "base64")) plain_service
           [(tag_web, [member host1 target1; member host2 target1]);
            (tag_db, [])]
           [(str "pw", VStr (str "pass"))] eq_refl).
Defined.

(** Property X17. In the grouped branch the secrets are resolved inside the
    loop over the entries of a group: when resolving raises, publishing
    raises the same exception as soon as some stored group has an entry, and
    succeeds with the add_group calls alone when every stored group is
    empty. *)
Theorem publish_groups_resolves_at_members_only W opts sd groups e :
  hasattr (sd_secrets sd) = true ->
  resolve_secrets W opts sd = Raise e ->
  (Forall (fun g => g.2 = []) groups ->
   publish_groups W opts sd groups
   = (map (fun g => AddGroup g.1) groups, Ok ()))
  /\ (Exists (fun g => g.2 <> []) groups ->
      (publish_groups W opts sd groups).2 = Raise e).
Proof.
  intros Hattr Hraise. split.
  - apply publish_groups_no_member.
  - apply publish_groups_raises. intros group.
    unfold secret_events. by rewrite Hattr, Hraise.
Qed.

Lemma publish_groups_resolves_at_members_only_witness :
  publish_groups answering_world (sample_options (str "none")) plain_service
    [(tag_web, []); (tag_db, [])]
  = ([AddGroup tag_web; AddGroup tag_db], Ok ())
  /\ (publish_groups answering_world (sample_options (str "none"))
        plain_service [(tag_web, []); (tag_db, [member host3 target1])]).2
     = Raise UnboundLocalError.
Proof.
  split.
  - apply (publish_groups_resolves_at_members_only answering_world
             (sample_options (str "none")) plain_service
             [(tag_web, []); (tag_db, [])] UnboundLocalError eq_refl eq_refl).
    repeat (apply Forall_cons; split; [reflexivity|]). apply Forall_nil_2.
  - apply (publish_groups_resolves_at_members_only answering_world
             (sample_options (str "none")) plain_service
             [(tag_web, []); (tag_db, [member host3 target1])]
             UnboundLocalError eq_refl eq_refl).
    apply Exists_cons_tl, Exists_cons_hd. discriminate.
Defined.

(** *** A pass over groups it has just written *)

Lemma check_groups_fresh_false pool rules tgt fresh rest :
  create_groups pool rules tgt = Ok (fresh, rest) ->
  2 <= length pool -> rule_tags rules <> [] ->
  check_groups fresh rules pool = false.
Proof.
  intros Hrun Hlen Htags.
  destruct (check_groups fresh rules pool) eqn:Hchk; [|done]. exfalso.
  destruct (rule_tags rules) as [|t ts] eqn:Ht; [done|].
  destruct (proj1 (check_groups_true fresh rules pool) Hchk t) as (m & Hm & Hsize).
  { rewrite Ht. apply list_elem_of_here. }
  destruct (create_groups_shape pool rules tgt fresh rest Hrun) as [_ Hshape].
  specialize (Hshape t). rewrite Hm in Hshape.
  destruct Hshape as (_ & Hpos & Htotal & _). nia.
Qed.

(** Property X18. Groups computed by [create_groups] for two or more hosts
    and rules that list a tag are rejected by [check_groups]: a pass over a
    grouped service definition whose stored groups are exactly the ones
    computed from it computes them again and issues the same update again,
    leaving the stored groups as they were. *)
Theorem parse_definition_writes_again
    W opts name service index sd host_list rules fresh rest :
  sd_hosts sd = AttrVal host_list ->
  dict_get (str "stackl_inventory_groups") (provisioning_parameters sd)
  = Some (VRules rules) ->
  create_groups host_list rules (infrastructure_target sd) = Ok (fresh, rest) ->
  2 <= length host_list -> rule_tags rules <> [] ->
  let p := parse_definition W opts name service index sd fresh in
  p_writes p = [groups_update name fresh] /\ p_groups p = fresh.
Proof.
  intros Hh Hp Hrun Hlen Htags.
  pose proof (check_groups_fresh_false _ _ _ _ _ Hrun Hlen Htags) as Hchk.
  unfold parse_definition, reconcile_groups, dict_mem.
  rewrite Hh, Hp. simpl. rewrite Hchk, Hrun.
  fold (groups_update name fresh).
  destruct (put_stack_instance W (groups_update name fresh)); simpl.
  - by destruct (publish_groups W opts sd fresh).
  - done.
Qed.

Lemma parse_definition_writes_again_witness :
  let fresh := [ (tag_web, [member host1 target1; member host2 target1]);
                 (tag_db, [member host3 target1]) ] in
  let p := parse_definition answering_world (sample_options (str "base64"))
             (str "instance-1") (str "app") 0
             (grouped_service scenario_pool scenario_rules) fresh in
  create_groups scenario_pool scenario_rules target1 = Ok (fresh, [host4])
  /\ p_writes p = [groups_update (str "instance-1") fresh]
  /\ p_groups p = fresh.
Proof.
  split; [reflexivity|].
  apply (parse_definition_writes_again answering_world
           (sample_options (str "base64")) (str "instance-1") (str "app") 0
           (grouped_service scenario_pool scenario_rules)
           scenario_pool scenario_rules
           [ (tag_web, [member host1 target1; member host2 target1]);
             (tag_db, [member host3 target1]) ] [host4]).
  - reflexivity.
  - reflexivity.
  - reflexivity.
  - vm_compute. lia.
  - discriminate.
Defined.

(** *** The host pattern of the command *)

Lemma split_go_piece c p : forall rest cur,
  c ∉ p -> split_go [c] (p ++ rest) 0 cur = split_go [c] rest 0 (cur ++ p).
Proof.
  induction p as [|x p IH]; intros rest cur Hc.
  - by rewrite app_nil_r.
  - apply not_elem_of_cons in Hc as [Hne Hc].
    change ((x :: p) ++ rest) with (x :: (p ++ rest)). cbn [split_go starts_with].
    rewrite (proj2 (N.eqb_neq c x)) by done. cbn [andb].
    rewrite IH by done. by rewrite <- app_assoc.
Qed.

Lemma split_go_separator c rest cur :
  split_go [c] (c :: rest) 0 cur = cur :: split_go [c] rest 0 [].
Proof. cbn [split_go starts_with]. by rewrite N.eqb_refl. Qed.

Lemma split_go_join c ps : forall p cur,
  Forall (fun piece => c ∉ piece) (p :: ps) ->
  split_go [c] (join [c] (p :: ps)) 0 cur = (cur ++ p) :: ps.
Proof.
  induction ps as [|q ps IH]; intros p cur [Hp Hps]%Forall_cons.
  - cbn [join]. rewrite <- (app_nil_r p) at 1.
    by rewrite split_go_piece.
  - change (join [c] (p :: q :: ps)) with (p ++ [c] ++ join [c] (q :: ps)).
    rewrite split_go_piece by done. cbn [app].
    rewrite split_go_separator. by rewrite IH.
Qed.

Lemma split_join c pieces :
  pieces <> [] -> Forall (fun piece => c ∉ piece) pieces ->
  split [c] (join [c] pieces) = pieces.
Proof.
  intros Hne Hall. destruct pieces as [|p ps]; [done|].
  unfold split. by rewrite split_go_join.
Qed.

(** Property X19. The pattern of the command is the hosts of the handler
    joined by commas: for a non-empty host list without a comma in any name,
    splitting the pattern at the commas gives back the hosts in order; for
    an empty host list the pattern is the empty string. *)
Theorem host_pattern_names_the_hosts h hosts :
  h_hosts h = Some hosts ->
  (hosts <> [] -> Forall (fun host => 44%N ∉ host) hosts ->
   split (str ",") (host_pattern h) = hosts)
  /\ (hosts = [] -> host_pattern h = []).
Proof.
  intros Hh. unfold host_pattern. rewrite Hh. split.
  - intros Hne Hall. by apply (split_join 44%N).
  - by intros ->.
Qed.

Lemma host_pattern_names_the_hosts_witness :
  host_pattern (sample_handler (Some [host1; host2])) = str "h1,h2"
  /\ split (str ",") (host_pattern (sample_handler (Some [host1; host2])))
     = [host1; host2].
Proof.
  split; [reflexivity|].
  destruct (host_pattern_names_the_hosts (sample_handler (Some [host1; host2]))
              [host1; host2] eq_refl) as [Hsplit _].
  apply Hsplit; [discriminate|].
  repeat (apply Forall_cons; split;
          [intros Hin; vm_compute in Hin;
           repeat (apply elem_of_cons in Hin as [Hin | Hin]; [discriminate Hin|]);
           by apply elem_of_nil in Hin|]).
  apply Forall_nil_2.
Defined.

(** *** The command and the inventory name the same hosts *)

Lemma AddHost_set_variables host group g d :
  AddHost host group ∉ set_variables g d.
Proof.
  induction d as [|[k v] d IH]; [apply not_elem_of_nil|].
  apply not_elem_of_cons. by split.
Qed.

Lemma AddHost_secret_events W opts sd g sevs host group :
  secret_events W opts sd g = Ok sevs -> AddHost host group ∉ sevs.
Proof.
  unfold secret_events. destruct (hasattr (sd_secrets sd)).
  - destruct (resolve_secrets W opts sd); [|done].
    intros [= <-]. apply AddHost_set_variables.
  - intros [= <-]. apply not_elem_of_nil.
Qed.

Lemma AddHost_map (host service : pystr) (hs : list pystr) :
  AddHost host service ∈ map (fun h => AddHost h service) hs <-> host ∈ hs.
Proof.
  induction hs as [|h hs IH]; simpl.
  - split; intros H; by apply elem_of_nil in H.
  - rewrite !elem_of_cons, IH. split; intros [H | H]; auto.
    + injection H as ->. by left.
    + subst. by left.
Qed.

Lemma AddHost_service_events host service declared key value params tail :
  AddHost host service ∉ tail ->
  AddHost host service
  ∈ AddGroup service :: map (fun h => AddHost h service) declared
    ++ SetVariable service key value :: set_variables service params ++ tail
  <-> host ∈ declared.
Proof.
  intros Htail.
  rewrite elem_of_cons, elem_of_app, elem_of_cons, elem_of_app, AddHost_map.
  split.
  - intros [H | [H | [H | [H | H]]]]; try done.
    by apply AddHost_set_variables in H.
  - intros H. right. by left.
Qed.

Lemma publish_service_hosts W opts service index sd host :
  hasattr (sd_hosts sd) = true ->
  AddHost host service ∈ (publish_service W opts service index sd).1
  <-> host ∈ match sd_hosts sd with
             | AttrVal (h :: hs) => h :: hs
             | _ => [service ++ str "_" ++ str_of_nat index]
             end.
Proof.
  intros Hattr. unfold publish_service.
  pose proof (AddHost_secret_events W opts sd service) as Hsecrets.
  destruct (sd_hosts sd) as [| |[|h hs]] eqn:Hh; [done|..];
    destruct (secret_events W opts sd service) as [sevs|e]; cbn [fst].
  all: try (rewrite <- app_comm_cons, <- app_assoc, <- app_comm_cons;
            apply (AddHost_service_events host service [_]); by apply Hsecrets).
  all: try (rewrite <- app_comm_cons, <- app_assoc, <- app_comm_cons;
            apply (AddHost_service_events host service (_ :: _));
            by apply Hsecrets).
  all: rewrite <- (app_nil_r (set_variables _ _)).
  1,2: apply (AddHost_service_events host service [_]), not_elem_of_nil.
  apply (AddHost_service_events host service (_ :: _)), not_elem_of_nil.
Qed.

(** Property X20. For a service definition published by the else-branch of
    the plugin and a handler with the same service name, index and hosts:
    with a non-empty host list without commas in the names, the hosts added
    to the group of the service are exactly the names of the pattern; with
    hosts None the one host added is the pattern; with an empty host list
    the plugin adds the host named after the service and the index while the
    pattern is the empty string, so the pattern names no host of the
    inventory. *)
Theorem command_pattern_and_inventory_hosts W opts sd h :
  hasattr (sd_hosts sd) = true ->
  h_hosts h = match sd_hosts sd with AttrVal hosts => Some hosts | _ => None end ->
  (forall hosts, sd_hosts sd = AttrVal hosts ->
     Forall (fun host => 44%N ∉ host) hosts ->
     hosts <> [] ->
     forall host,
       AddHost host (h_service h)
       ∈ (publish_service W opts (h_service h) (h_index h) sd).1
       <-> host ∈ split (str ",") (host_pattern h))
  /\ (sd_hosts sd = AttrNone ->
      forall host,
        AddHost host (h_service h)
        ∈ (publish_service W opts (h_service h) (h_index h) sd).1
        <-> host = host_pattern h)
  /\ (sd_hosts sd = AttrVal [] ->
      host_pattern h = []
      /\ forall host,
           AddHost host (h_service h)
           ∈ (publish_service W opts (h_service h) (h_index h) sd).1
           -> host <> host_pattern h).
Proof.
  intros Hattr Hh. split_and!.
  - intros hosts Hsd Hall Hne host.
    rewrite publish_service_hosts by done. rewrite Hsd in Hh |- *.
    unfold host_pattern. rewrite Hh.
    change (str ",") with [44%N].
    rewrite (split_join 44%N hosts) by done. by destruct hosts.
  - intros Hsd host. rewrite publish_service_hosts by done.
    rewrite Hsd in Hh |- *. unfold host_pattern. rewrite Hh.
    by rewrite list_elem_of_singleton.
  - intros Hsd. rewrite Hsd in Hh.
    unfold host_pattern. rewrite Hh.
    split; [done|]. intros host. rewrite publish_service_hosts by done.
    rewrite Hsd. rewrite list_elem_of_singleton. intros -> Heq.
    by apply app_eq_nil in Heq as [_ Heq].
Qed.

Lemma command_pattern_and_inventory_hosts_witness :
  host_pattern (sample_handler (Some [])) = []
  /\ forall host,
       AddHost host (str "db")
       ∈ (publish_service answering_world (sample_options (str "base64"))
            (str "db") 0 (hosted_service (AttrVal []))).1
       -> host <> host_pattern (sample_handler (Some [])).
Proof.
  destruct (command_pattern_and_inventory_hosts answering_world
              (sample_options (str "base64")) (hosted_service (AttrVal []))
              (sample_handler (Some [])) eq_refl eq_refl)
    as (_ & _ & Hempty).
  exact (Hempty eq_refl).
Defined.

(** *** [verify_file] *)

Lemma ends_with_iff suffix s :
  ends_with suffix s = true <-> exists stem, s = stem ++ suffix.
Proof.
  unfold ends_with. split.
  - intros [rest Hrest]%starts_with_true. exists (rev rest).
    rewrite <- (rev_involutive s), Hrest, rev_app_distr.
    by rewrite rev_involutive.
  - intros [stem ->]. rewrite rev_app_distr. apply starts_with_app.
Qed.

(** Property X21. [verify_file] accepts a path exactly when the base class
    accepts it and the path ends with stackl.yaml or stackl.yml, whatever
    precedes the suffix. *)
Theorem verify_file_accepts base_verify path :
  verify_file base_verify path = true
  <-> base_verify path = true
      /\ exists stem, path = stem ++ str "stackl.yaml"
                      \/ path = stem ++ str "stackl.yml".
Proof.
  unfold verify_file. destruct (base_verify path); [|by split; [|intros []]].
  destruct (ends_with (str "stackl.yaml") path) eqn:Hyaml;
    destruct (ends_with (str "stackl.yml") path) eqn:Hyml; simpl.
  1-3: split; [intros _; split; [done|] | done].
  - apply ends_with_iff in Hyaml as [stem ->]. eauto.
  - apply ends_with_iff in Hyaml as [stem ->]. eauto.
  - apply ends_with_iff in Hyml as [stem ->]. eauto.
  - split; [done|]. intros [_ [stem [-> | ->]]].
    + assert (ends_with (str "stackl.yaml") (stem ++ str "stackl.yaml") = true)
        by (apply ends_with_iff; eauto). congruence.
    + assert (ends_with (str "stackl.yml") (stem ++ str "stackl.yml") = true)
        by (apply ends_with_iff; eauto). congruence.
Qed.
